(** * Core: the plugin registration engine

    A shallow embedding of [Core.registerPlugins] (src/core.js) and of the
    plugin interface it consumes.  Core's four tables are an explicit state,
    the hooks of the plugins are calls that are logged and may throw, and the
    object handed to [register] is a live read-through view of the exposure
    table. *)

From stdpp Require Import base option list strings gmap sorting.

#[local] Set Warnings "-register-all,-clear-no-such-hyp".

(** ** JavaScript data

    Names and keys are strings of code units below 256, so that the order
    of [String.le] is the code-unit order JavaScript compares strings by. *)

(** What a plugin exposes: [undefined], [null], or an object given by its
    identity and the properties that can be read on it. *)
Inductive value : Type :=
| VUndefined
| VNull
| VObject (oid : nat) (props : list (string * value)).

(** What can be thrown during a registration. [Error] carries the message of
    [new Error(message)]; [TypeError] is a property read on [undefined] or
    [null]; [RangeError] is an exhausted call stack. *)
Inductive exn : Type :=
| Error (message : string)
| TypeError
| RangeError.

Inductive result (A : Type) : Type :=
| Ok (a : A)
| Throw (e : exn).
Arguments Ok {A} a.
Arguments Throw {A} e.

Definition is_Ok {A} (r : result A) : Prop := ∃ a, r = Ok a.

Fixpoint own_property (k : string) (props : list (string * value)) : option value :=
  match props with
  | [] => None
  | (k', v) :: rest => if decide (k = k') then Some v else own_property k rest
  end.

(** [v[k]] *)
Definition get_property (v : value) (k : string) : result value :=
  match v with
  | VUndefined | VNull => Throw TypeError
  | VObject _ props => Ok (default VUndefined (own_property k props))
  end.

(** Plain data objects: the metadata objects and what is built from them.
    An object is its list of properties, in insertion order. *)
Inductive jsdata : Type :=
| DString (s : string)
| DArray (items : list jsdata)
| DObject (props : list (string * jsdata)).

Definition jsobject : Type := list (string * jsdata).

Definition keys (o : jsobject) : list string := o.*1.

Fixpoint set_property (o : jsobject) (k : string) (v : jsdata) : jsobject :=
  match o with
  | [] => [(k, v)]
  | (k', v') :: rest =>
      if decide (k = k') then (k, v) :: rest else (k', v') :: set_property rest k v
  end.

(** The assignment expression [data[k] = v]: the object as it is afterwards,
    and the value of the expression, which is the assigned value. *)
Definition assign (data : jsobject) (k : string) (v : jsobject) : jsobject * jsobject :=
  (set_property data k (DObject v), v).

(** ** The plugin interface *)

Module Metadata.

Record t : Type := { name : string; provides : list string; depends : list string }.

(** The object a [metadata] getter returns: a fresh literal on every read,
    as in every plugin of the repository. *)
Definition object (m : t) : jsobject :=
  [ ("name", DString (name m));
    ("provides", DArray (DString <$> provides m));
    ("depends", DArray (DString <$> depends m)) ].

End Metadata.

Module Options.

(** [{ name?, overrides? }]; only the keys of [overrides] are ever read by
    Core, its values are carried along as given. *)
Record t : Type := { name : option string; overrides : option (gmap string string) }.

(** [{}] *)
Definition empty : t := {| name := None; overrides := None |}.

End Options.

(** What reading a key of the object passed to [register] gives at the time
    of a call. *)
Definition view : Type := string → result value.

(** A plugin instance: its identity as an object, the metadata its getter
    returns, and its hooks. The hooks are the plugin's own code: each is
    given what it can see of Core, namely the view it received in [register]
    (every plugin of the repository keeps it in [this.core]) read at the time
    of the call, and returns or throws. A hook does not call
    [registerPlugins] itself. *)
Record Plugin : Type := {
  pid : nat;
  metadata : Metadata.t;
  register : view → result value;
  init : view → result ();
  afterInit : view → result ();
  onPluginRegister : view → jsobject → result ();
}.

(** An item of the array given to [registerPlugins]: a plugin, or a
    plugin/options pair. *)
Inductive item : Type :=
| Bare (p : Plugin)
| Pair (p : Plugin) (options : Options.t).

(** ** Core's state *)

Record Core : Type := {
  dependencyGraph : gmap string (list string);
  plugins : gmap string value;
  availablePlugins : list string;
  rawPlugins : list (Plugin * Options.t);
}.

(** [new Core()] *)
Definition constructor : Core :=
  {| dependencyGraph := ∅; plugins := ∅; availablePlugins := []; rawPlugins := [] |}.

(** The calls Core makes into plugins, in the order it makes them. *)
Inductive call : Type :=
| CallRegister (p : nat)
| CallInit (p : nat)
| CallAfterInit (p : nat)
| CallOnPluginRegister (p : nat) (pluginData : jsobject).

(** ** Computations on Core: state, log of calls, exceptions

    A thrown exception stops the computation and leaves the state as it is at
    that point: nothing is rolled back. *)
Definition M (A : Type) : Type := Core → result A * Core * list call.

Global Instance M_ret : MRet M := λ A a c, (Ok a, c, []).

Global Instance M_bind : MBind M := λ A B f m c,
  match m c with
  | (Ok a, c', log) => let '(r, c'', log') := f a c' in (r, c'', log ++ log')
  | (Throw e, c', log) => (Throw e, c', log)
  end.

Definition get : M Core := λ c, (Ok c, c, []).
Definition modify (f : Core → Core) : M () := λ c, (Ok (), f c, []).
Definition throw {A} (e : exn) : M A := λ c, (Throw e, c, []).

(** A call into a plugin: logged, then its outcome taken over. *)
Definition invoke {A} (what : call) (outcome : result A) : M A :=
  λ c, (outcome, c, [what]).

(** [array.forEach(f)] *)
Fixpoint forEach {A} (f : A → M ()) (l : list A) : M () :=
  match l with
  | [] => mret ()
  | x :: rest => f x ;; forEach f rest
  end.

(** ** JavaScript [Set]s of strings: no duplicates, insertion order *)

Definition Set_add (s : list string) (x : string) : list string :=
  if decide (x ∈ s) then s else s ++ [x].

Definition new_Set (l : list string) : list string := foldl Set_add [] l.

(** [array.join(sep)] *)
Fixpoint join (sep : string) (l : list string) : string :=
  match l with
  | [] => ""
  | [x] => x
  | x :: rest => x +:+ sep +:+ join sep rest
  end.

(** [array.sort()] on distinct strings: ascending code-unit order. *)
Definition sort (l : list string) : list string := merge_sort String.le l.

(** ** registerPlugins *)

(** [plugins.map((p) => Array.isArray(p) ? p : [p, {}])] *)
Definition normalize (i : item) : Plugin * Options.t :=
  match i with
  | Bare p => (p, Options.empty)
  | Pair p options => (p, options)
  end.

(** One round of the first [forEach]: the plugin's dependencies go to the
    required set, its name and what it provides to the available set. *)
Definition collect (acc : list string * list string) (entry : Plugin * Options.t)
    : list string * list string :=
  let '(requiredDependencies, available) := acc in
  let m := metadata entry.1 in
  (foldl Set_add requiredDependencies (Metadata.depends m),
   foldl Set_add (Set_add available (Metadata.name m)) (Metadata.provides m)).

(** [required \ available], in insertion order. *)
Definition difference (c : Core) (normalizedPlugins : list (Plugin * Options.t))
    : list string :=
  let '(requiredDependencies, available) :=
    foldl collect ([], new_Set (availablePlugins c)) normalizedPlugins in
  new_Set (filter (λ p, p ∉ available) requiredDependencies).

Definition unmet_message (missing : list string) : string :=
  "Unmet dependencies: " +:+ join ", " (sort missing).

Definition check_dependencies (normalizedPlugins : list (Plugin * Options.t)) : M () :=
  c ← get;
  let missing := difference c normalizedPlugins in
  if decide (length missing ≠ 0) then throw (Error (unmet_message missing))
  else mret ().

(** [options.name || metadata.name]: the empty string is falsy. *)
Definition key (plugin : Plugin) (options : Options.t) : string :=
  match Options.name options with
  | Some n => if decide (n = "") then Metadata.name (metadata plugin) else n
  | None => Metadata.name (metadata plugin)
  end.

(** The keys on which the view has a getter of its own. *)
Definition overrideKeys (options : Options.t) : gset string :=
  match Options.overrides options with
  | Some overrides => dom overrides
  | None => ∅
  end.

(** Reading key [k] of [pluginsWithOverrides], with [stack] frames left.
    A key with a getter of its own runs [this.plugins[overrideKey]] with
    [this] the view itself: it first reads the key ["plugins"] of the view,
    then the property [k] of what that gave. Any other key is inherited from
    [this.plugins], the exposure table, where a bound key is a getter that
    returns the exposed value. *)
Fixpoint read_view (stack : nat) (exposed : gmap string value) (own : gset string)
    (k : string) : result value :=
  if decide (k ∈ own) then
    match stack with
    | 0 => Throw RangeError
    | S stack' =>
        match read_view stack' exposed own "plugins" with
        | Ok p => get_property p k
        | Throw e => Throw e
        end
    end
  else
    match exposed !! k, stack with
    | Some _, 0 => Throw RangeError
    | Some v, S _ => Ok v
    | None, _ => Ok VUndefined
    end.

(** The same without the stack: when ["plugins"] has a getter of its own the
    getter calls itself until the stack is exhausted, otherwise two frames
    suffice ([read_view_pluginsWithOverrides] below). *)
Definition pluginsWithOverrides (exposed : gmap string value) (options : Options.t)
    : view := λ k,
  if decide (k ∈ overrideKeys options) then
    if decide ("plugins" ∈ overrideKeys options) then Throw RangeError
    else get_property (default VUndefined (exposed !! "plugins")) k
  else Ok (default VUndefined (exposed !! k)).

(** [if (!graph[dependency]) graph[dependency] = []; graph[dependency].push(name)] *)
Definition add_dependent (dependency name : string) (c : Core) : Core :=
  {| dependencyGraph :=
       <[dependency := default [] (dependencyGraph c !! dependency) ++ [name]]>
         (dependencyGraph c);
     plugins := plugins c;
     availablePlugins := availablePlugins c;
     rawPlugins := rawPlugins c |}.

(** [Object.defineProperty(this.plugins, key, { get() { return value; } })] *)
Definition expose (k : string) (v : value) (c : Core) : Core :=
  {| dependencyGraph := dependencyGraph c;
     plugins := <[k := v]> (plugins c);
     availablePlugins := availablePlugins c;
     rawPlugins := rawPlugins c |}.

(** The same under [if (!(provided in this.plugins))]. *)
Definition exposeAlias (provided : string) (v : value) (c : Core) : Core :=
  if decide (provided ∈ dom (plugins c)) then c else expose provided v c.

(** [this.availablePlugins.push(name)] *)
Definition push_available (name : string) (c : Core) : Core :=
  {| dependencyGraph := dependencyGraph c;
     plugins := plugins c;
     availablePlugins := availablePlugins c ++ [name];
     rawPlugins := rawPlugins c |}.

(** One round of the second [forEach]. *)
Definition register_plugin (entry : Plugin * Options.t) : M () :=
  let '(plugin, options) := entry in
  let m := metadata plugin in
  let k := key plugin options in
  c ← get;
  v ← invoke (CallRegister (pid plugin))
        (register plugin (pluginsWithOverrides (plugins c) options));
  forEach (λ dependency, modify (add_dependent dependency (Metadata.name m)))
    (Metadata.depends m);;
  modify (expose k v);;
  modify (push_available (Metadata.name m));;
  forEach (λ provided,
      modify (exposeAlias provided v);; modify (push_available provided))
    (Metadata.provides m).

Definition init_plugin (entry : Plugin * Options.t) : M () :=
  c ← get;
  invoke (CallInit (pid entry.1))
    (init entry.1 (pluginsWithOverrides (plugins c) entry.2)).

Definition afterInit_plugin (entry : Plugin * Options.t) : M () :=
  c ← get;
  invoke (CallAfterInit (pid entry.1))
    (afterInit entry.1 (pluginsWithOverrides (plugins c) entry.2)).

(** [normalizedPlugins.reduce((data, [{ metadata }, { name }]) =>
      data[name || metadata.name] = metadata, {})]: the callback returns the
    value of the assignment, which becomes [data] in the next round. *)
Definition pluginData (normalizedPlugins : list (Plugin * Options.t)) : jsobject :=
  foldl (λ data entry,
      (assign data (key entry.1 entry.2) (Metadata.object (metadata entry.1))).2)
    [] normalizedPlugins.

Definition notify_plugin (data : jsobject) (entry : Plugin * Options.t) : M () :=
  c ← get;
  invoke (CallOnPluginRegister (pid entry.1) data)
    (onPluginRegister entry.1 (pluginsWithOverrides (plugins c) entry.2) data).

(** [this.rawPlugins.push.apply(this.rawPlugins, normalizedPlugins)] *)
Definition push_rawPlugins (normalizedPlugins : list (Plugin * Options.t)) (c : Core)
    : Core :=
  {| dependencyGraph := dependencyGraph c;
     plugins := plugins c;
     availablePlugins := availablePlugins c;
     rawPlugins := rawPlugins c ++ normalizedPlugins |}.

Definition registerPlugins (batch : list item) : M () :=
  let normalizedPlugins := normalize <$> batch in
  check_dependencies normalizedPlugins;;
  forEach register_plugin normalizedPlugins;;
  forEach init_plugin normalizedPlugins;;
  forEach afterInit_plugin normalizedPlugins;;
  c ← get;
  forEach (notify_plugin (pluginData normalizedPlugins)) (rawPlugins c);;
  modify (push_rawPlugins normalizedPlugins).

(** ** Vocabulary of the statements *)

(** The state after one round of the second [forEach] in which [register]
    returned [v]. *)
Definition registered (entry : Plugin * Options.t) (v : value) (c : Core) : Core :=
  let m := metadata entry.1 in
  foldl (λ c provided, push_available provided (exposeAlias provided v c))
    (push_available (Metadata.name m)
       (expose (key entry.1 entry.2) v
          (foldl (λ c dependency, add_dependent dependency (Metadata.name m) c)
             c (Metadata.depends m))))
    (Metadata.provides m).

(** The exposure table after the aliases of one plugin: each alias is bound
    to [v] unless it was bound already. *)
Definition alias_all (v : value) (l : list string) (t : gmap string value)
    : gmap string value :=
  foldl (λ t x, if decide (x ∈ dom t) then t else <[x := v]> t) t l.

(** [registers c entries c']: every [register] of [entries] returns, and the
    second [forEach] takes Core from [c] to [c']. *)
Inductive registers : Core → list (Plugin * Options.t) → Core → Prop :=
| registers_nil c : registers c [] c
| registers_cons c entry v entries c' :
    register entry.1 (pluginsWithOverrides (plugins c) entry.2) = Ok v →
    registers (registered entry v c) entries c' →
    registers c (entry :: entries) c'.

(** The hooks Core calls on the members of a batch do not throw. *)
Definition returns (p : Plugin) : Prop :=
  (∀ r, is_Ok (register p r)) ∧ (∀ r, init p r = Ok ()) ∧ (∀ r, afterInit p r = Ok ()).

(** The hook Core calls on the plugins of earlier batches does not throw. *)
Definition listens (p : Plugin) : Prop := ∀ r data, onPluginRegister p r data = Ok ().

(** The names a batch makes available: each member's name and what it
    provides. *)
Definition offered (entries : list (Plugin * Options.t)) : list string :=
  entries ≫= λ entry,
    Metadata.name (metadata entry.1) :: Metadata.provides (metadata entry.1).

(** The names a batch depends on. *)
Definition wanted (entries : list (Plugin * Options.t)) : list string :=
  entries ≫= λ entry, Metadata.depends (metadata entry.1).

(** [d] is in the [depends] of a member of the batch, is not among the
    [available] names, and is neither the name of a member nor in the
    [provides] of one. *)
Definition unmet (available : list string) (entries : list (Plugin * Options.t))
    (d : string) : Prop :=
  (∃ q, q ∈ entries ∧ d ∈ Metadata.depends (metadata q.1)) ∧
  (d ∉ available) ∧
  (∀ q, q ∈ entries →
     d ≠ Metadata.name (metadata q.1) ∧ (d ∉ Metadata.provides (metadata q.1))).

(** Every name in the [depends] of a member is already available, or is the
    name of a member, or is in the [provides] of one. *)
Definition satisfiable (available : list string) (entries : list (Plugin * Options.t))
    : Prop :=
  ∀ q d, q ∈ entries → d ∈ Metadata.depends (metadata q.1) →
    d ∈ available ∨
    ∃ q', q' ∈ entries ∧
      (d = Metadata.name (metadata q'.1) ∨ d ∈ Metadata.provides (metadata q'.1)).

(** A plugin like those of the repository: [register] returns an object of
    the plugin's own, the other hooks do nothing. The metadata has the key
    [depends] that Core reads (as [HasDependencyPlugin] and the two circular
    plugins have it). *)
Definition sample (id : nat) (name : string) (provides depends : list string) : Plugin :=
  {| pid := id;
     metadata := {| Metadata.name := name; Metadata.provides := provides;
                    Metadata.depends := depends |};
     register := λ _, Ok (VObject id []);
     init := λ _, Ok ();
     afterInit := λ _, Ok ();
     onPluginRegister := λ _ _, Ok () |}.

Definition examplePlugin : Plugin := sample 1 "example" [] [].
Definition hasDependency : Plugin := sample 2 "hasDependency" [] ["example"].
Definition circularDependencyA : Plugin :=
  sample 3 "circularDependencyA" [] ["circularDependencyB"].
Definition circularDependencyB : Plugin :=
  sample 4 "circularDependencyB" [] ["circularDependencyA"].
Definition windowEvents : Plugin := sample 5 "windowEvents" ["events"] [].

(** A plugin that keeps the view it is handed in [register]
    ([this.core = plugins], as the plugins of the repository do) and, in
    [init] and in [afterInit], calls into each plugin it depends on through
    that view: reading a property of [this.core[d]] throws a [TypeError]
    when the view gives [undefined] for [d]. *)
Fixpoint uses (r : view) (depends : list string) : result () :=
  match depends with
  | [] => Ok ()
  | d :: rest =>
      match r d with
      | Ok v =>
          match get_property v "core" with
          | Ok _ => uses r rest
          | Throw e => Throw e
          end
      | Throw e => Throw e
      end
  end.

Definition dependent (id : nat) (name : string) (depends : list string) : Plugin :=
  {| pid := id;
     metadata := {| Metadata.name := name; Metadata.provides := [];
                    Metadata.depends := depends |};
     register := λ _, Ok (VObject id []);
     init := λ r, uses r depends;
     afterInit := λ r, uses r depends;
     onPluginRegister := λ _ _, Ok () |}.

Definition usesCircularB : Plugin :=
  dependent 14 "circularDependencyA" ["circularDependencyB"].
Definition usesCircularA : Plugin :=
  dependent 15 "circularDependencyB" ["circularDependencyA"].

(** Strictly ascending in code-unit order. *)
Definition ascending (l : list string) : Prop :=
  StronglySorted (λ a b, String.le a b ∧ a ≠ b) l.

Definition pids (entries : list (Plugin * Options.t)) : list nat :=
  (λ entry, pid entry.1) <$> entries.

Definition notifications (data : jsobject) (entries : list (Plugin * Options.t))
    : list call :=
  (λ entry, CallOnPluginRegister (pid entry.1) data) <$> entries.

Definition is_notification (what : call) : bool :=
  match what with
  | CallOnPluginRegister _ _ => true
  | _ => false
  end.

Definition is_notification_of (p : nat) (what : call) : bool :=
  match what with
  | CallOnPluginRegister q _ => bool_decide (p = q)
  | _ => false
  end.

(** How many times [onPluginRegister] was called on plugin [p]. *)
Definition notified (p : nat) (log : list call) : nat :=
  length (filter (λ what, is_notification_of p what = true) log).

(** How many times plugin [p] occurs among [entries]. *)
Definition occurrences (p : nat) (entries : list (Plugin * Options.t)) : nat :=
  length (filter (λ entry, pid entry.1 = p) entries).

(** What a plugin appends to the dependency graph under [d]: its name, once
    for each occurrence of [d] in its [depends]. *)
Definition dependents (d : string) (entries : list (Plugin * Options.t)) : list string :=
  entries ≫= λ entry,
    (λ _, Metadata.name (metadata entry.1))
      <$> filter (λ x, x = d) (Metadata.depends (metadata entry.1)).

(** The object the documentation of [onPluginRegister] describes: "an object
    whose keys are the exposed names of the plugins and whose values are the
    metadata objects of the plugins". *)
Definition metadataByKey (entries : list (Plugin * Options.t)) : jsobject :=
  foldl (λ data entry,
      set_property data (key entry.1 entry.2)
        (DObject (Metadata.object (metadata entry.1))))
    [] entries.

(** ** Sample batches *)

(** A plugin with an alias and one registered under a custom name. *)
Definition custom_name : Options.t :=
  {| Options.name := Some "custom"; Options.overrides := None |}.

Definition custom_batch : list item := [Bare windowEvents; Pair examplePlugin custom_name].

(** A logger registered under the key ["customLogger"], and a plugin that
    reads [plugins.logger] in [register] to keep it, registered with
    [overrides: { logger: "customLogger" }]. *)
Definition logger : Plugin := sample 6 "logger" [] [].

Definition as_customLogger : Options.t :=
  {| Options.name := Some "customLogger"; Options.overrides := None |}.

Definition usesLogger : Plugin :=
  {| pid := 7;
     metadata := {| Metadata.name := "usesLogger"; Metadata.provides := [];
                    Metadata.depends := ["logger"] |};
     register := λ plugins,
       match plugins "logger" with
       | Ok found => Ok (VObject 7 [("logger", found)])
       | Throw e => Throw e
       end;
     init := λ _, Ok ();
     afterInit := λ _, Ok ();
     onPluginRegister := λ _ _, Ok () |}.

(** A plugin whose [register] returns nothing. *)
Definition exposesNothing : Plugin :=
  {| pid := 9;
     metadata := {| Metadata.name := "nothing"; Metadata.provides := [];
                    Metadata.depends := [] |};
     register := λ _, Ok VUndefined;
     init := λ _, Ok ();
     afterInit := λ _, Ok ();
     onPluginRegister := λ _ _, Ok () |}.

Definition logger_override : Options.t :=
  {| Options.name := None; Options.overrides := Some {["logger" := "customLogger"]} |}.

(** * The earlier Core

    The earlier revision of [Core] kept beside the current one: its tables
    are object literals, which inherit from [Object.prototype]; plugins are
    given without options and handed Core itself; their metadata lists
    [dependencies]; names are registered before the dependencies are
    checked. As for the current Core, a hook reads what it is handed but
    does not change it, and [Object.prototype] is as the language defines
    it. *)

Module Legacy.

(** The properties an object literal inherits: functions, and the prototype
    object itself under [__proto__]. All are truthy and none has a [push]. *)
Definition Object_prototype : list string :=
  [ "constructor"; "__defineGetter__"; "__defineSetter__"; "hasOwnProperty";
    "__lookupGetter__"; "__lookupSetter__"; "isPrototypeOf";
    "propertyIsEnumerable"; "toString"; "valueOf"; "__proto__";
    "toLocaleString" ].

Record Metadata : Type :=
  { name : string; provides : list string; dependencies : list string }.

(** The object a [metadata] getter returns, as in [Base] and
    [ExamplePlugin]. *)
Definition object (m : Metadata) : jsobject :=
  [ ("name", DString (name m));
    ("provides", DArray (DString <$> provides m));
    ("dependencies", DArray (DString <$> dependencies m)) ].

(** What a plugin can read of the Core it is handed. *)
Record Tables : Type := {
  seen_dependencyMap : gmap string (list string);
  seen_plugins : gmap string value;
  seen_availablePlugins : list string;
}.

Record Plugin : Type := {
  pid : nat;
  metadata : Metadata;
  register : Tables → result value;
  init : Tables → result ();
  afterInit : Tables → result ();
  onPluginRegister : Tables → jsobject → result ();
}.

Record Core : Type := {
  dependencyMap : gmap string (list string);
  plugins : gmap string value;
  availablePlugins : list string;
  rawPlugins : list Plugin;
}.

(** [new Core()] *)
Definition constructor : Core :=
  {| dependencyMap := ∅; plugins := ∅; availablePlugins := []; rawPlugins := [] |}.

Definition this (c : Core) : Tables :=
  {| seen_dependencyMap := dependencyMap c;
     seen_plugins := plugins c;
     seen_availablePlugins := availablePlugins c |}.

Definition M (A : Type) : Type := Core → result A * Core * list call.

#[export] Instance M_ret : MRet M := λ A a c, (Ok a, c, []).

#[export] Instance M_bind : MBind M := λ A B f m c,
  match m c with
  | (Ok a, c', log) => let '(r, c'', log') := f a c' in (r, c'', log ++ log')
  | (Throw e, c', log) => (Throw e, c', log)
  end.

Definition get : M Core := λ c, (Ok c, c, []).
Definition modify (f : Core → Core) : M () := λ c, (Ok (), f c, []).
Definition throw {A} (e : exn) : M A := λ c, (Throw e, c, []).
Definition invoke {A} (what : call) (outcome : result A) : M A :=
  λ c, (outcome, c, [what]).

Fixpoint forEach {A} (f : A → M ()) (l : list A) : M () :=
  match l with
  | [] => mret ()
  | x :: rest => f x ;; forEach f rest
  end.

(** [this.dependencyMap[dependency].push(name)] on an array of the map's
    own. *)
Definition push_dependent (dependency name : string) (c : Core) : Core :=
  {| dependencyMap :=
       <[dependency := default [] (dependencyMap c !! dependency) ++ [name]]>
         (dependencyMap c);
     plugins := plugins c;
     availablePlugins := availablePlugins c;
     rawPlugins := rawPlugins c |}.

(** [if (!this.dependencyMap[dependency]) this.dependencyMap[dependency] = [];
     this.dependencyMap[dependency].push(name)]: an inherited property is
    truthy, so no array is made for it, and calling its [push] throws. *)
Definition add_dependent (dependency name : string) : M () :=
  c ← get;
  if decide (dependency ∈ dom (dependencyMap c)) then
    modify (push_dependent dependency name)
  else if decide (dependency ∈ Object_prototype) then throw TypeError
  else modify (push_dependent dependency name).

(** [Object.defineProperty(this.plugins, key, { get() { return value; } })] *)
Definition expose (k : string) (v : value) (c : Core) : Core :=
  {| dependencyMap := dependencyMap c;
     plugins := <[k := v]> (plugins c);
     availablePlugins := availablePlugins c;
     rawPlugins := rawPlugins c |}.

(** [this.availablePlugins.push(name)] *)
Definition push_available (n : string) (c : Core) : Core :=
  {| dependencyMap := dependencyMap c;
     plugins := plugins c;
     availablePlugins := availablePlugins c ++ [n];
     rawPlugins := rawPlugins c |}.

(** One round of the first [forEach]. *)
Definition register_plugin (plugin : Plugin) : M () :=
  let m := metadata plugin in
  c ← get;
  v ← invoke (CallRegister (pid plugin)) (register plugin (this c));
  forEach (λ dependency, add_dependent dependency (name m)) (dependencies m);;
  modify (expose (name m) v);;
  modify (push_available (name m));;
  forEach (λ provided,
      modify (expose provided v);; modify (push_available provided))
    (provides m).

(** [Object.keys(this.dependencyMap)]: the own keys; their order does not
    matter to what follows. *)
Definition Object_keys (o : gmap string (list string)) : list string :=
  elements (dom o).

(** [required \ available] *)
Definition difference (c : Core) : list string :=
  let available := new_Set (availablePlugins c) in
  let required := new_Set (Object_keys (dependencyMap c)) in
  new_Set (filter (λ p, p ∉ available) required).

(** [if (difference.size) throw new Error(... difference.values().sort() ...)]:
    [values()] gives an iterator, which has no [sort]; the call of
    [undefined] throws before the [Error] is made. *)
Definition check_dependencies : M () :=
  c ← get;
  if decide (length (difference c) ≠ 0) then throw TypeError else mret ().

Definition init_plugin (p : Plugin) : M () :=
  c ← get; invoke (CallInit (pid p)) (init p (this c)).

Definition afterInit_plugin (p : Plugin) : M () :=
  c ← get; invoke (CallAfterInit (pid p)) (afterInit p (this c)).

(** [String(d)] for a property key *)
Fixpoint to_string (d : jsdata) : string :=
  match d with
  | DString s => s
  | DArray items => join "," (to_string <$> items)
  | DObject _ => "[object Object]"
  end.

(** [o[k]] as a property key, ["undefined"] when there is none. *)
Definition property_key (o : jsobject) (k : string) : string :=
  match list_find (λ kv, kv.1 = k) o with
  | Some (_, (_, d)) => to_string d
  | None => "undefined"
  end.

(** [plugins.map(({ metadata }) => metadata)
      .reduce((meta, data) => data[meta.name] = meta, {})]: the
    accumulator is called [meta] and the metadata object [data]; the
    callback returns the value of the assignment. *)
Definition pluginData (batch : list Plugin) : jsobject :=
  foldl (λ meta data, (assign data (property_key meta "name") meta).2)
    [] (object ∘ metadata <$> batch).

Definition notify_plugin (data : jsobject) (p : Plugin) : M () :=
  c ← get;
  invoke (CallOnPluginRegister (pid p) data) (onPluginRegister p (this c) data).

(** [this.rawPlugins.push.apply(plugins)]: [push] is called on [plugins],
    the batch, with no argument, and appends nothing to anything. *)
Definition push_apply (batch : list Plugin) : M () := mret ().

Definition registerPlugins (batch : list Plugin) : M () :=
  forEach register_plugin batch;;
  check_dependencies;;
  forEach init_plugin batch;;
  forEach afterInit_plugin batch;;
  c ← get;
  forEach (notify_plugin (pluginData batch)) (rawPlugins c);;
  push_apply batch.

(** The state after one round of the first [forEach] in which [register]
    returned [v] and no dependency ran into an inherited property. *)
Definition registered (plugin : Plugin) (v : value) (c : Core) : Core :=
  let m := metadata plugin in
  foldl (λ c provided, push_available provided (expose provided v c))
    (push_available (name m)
       (expose (name m) v
          (foldl (λ c dependency, push_dependent dependency (name m) c)
             c (dependencies m))))
    (provides m).

(** [registers c batch c']: every [register] of [batch] returns, and the
    first [forEach] takes Core from [c] to [c']. *)
Inductive registers : Core → list Plugin → Core → Prop :=
| registers_nil c : registers c [] c
| registers_cons c plugin v batch c' :
    register plugin (this c) = Ok v →
    registers (registered plugin v c) batch c' →
    registers c (plugin :: batch) c'.

(** No dependency of the batch has the name of an inherited property. *)
Definition plain_dependencies (batch : list Plugin) : Prop :=
  ∀ p d, p ∈ batch → d ∈ dependencies (metadata p) → d ∉ Object_prototype.

(** The hooks Core calls on the members of a batch do not throw. *)
Definition returns (p : Plugin) : Prop :=
  (∀ t, is_Ok (register p t)) ∧ (∀ t, init p t = Ok ()) ∧ (∀ t, afterInit p t = Ok ()).

Definition listens (p : Plugin) : Prop := ∀ t data, onPluginRegister p t data = Ok ().

(** The names a batch makes available, and the names it depends on. *)
Definition offered (batch : list Plugin) : list string :=
  batch ≫= λ p, name (metadata p) :: provides (metadata p).

Definition wanted (batch : list Plugin) : list string :=
  batch ≫= λ p, dependencies (metadata p).

Definition pids (batch : list Plugin) : list nat := pid <$> batch.

(** A plugin like [Base]: [register] returns an object of the plugin's own,
    the other hooks do nothing. *)
Definition sample (id : nat) (n : string) (provided depended : list string) : Plugin :=
  {| pid := id;
     metadata := {| name := n; provides := provided; dependencies := depended |};
     register := λ _, Ok (VObject id []);
     init := λ _, Ok ();
     afterInit := λ _, Ok ();
     onPluginRegister := λ _ _, Ok () |}.

(** The plugins of the repository that declare [dependencies], and plugins
    like them with a dependency or a second provider of [events]. *)
Definition base : Plugin := sample 1 "base" [] [].
Definition examplePlugin : Plugin := sample 2 "example" [] [].
Definition windowEvents : Plugin := sample 3 "windowEvents" ["events"] [].
Definition needsCache : Plugin := sample 4 "needsCache" [] ["cache"].
Definition needsToString : Plugin := sample 5 "needsToString" [] ["events"; "toString"].
Definition domEvents : Plugin := sample 6 "domEvents" ["events"] [].
Definition needsEvents : Plugin := sample 7 "needsEvents" [] ["events"].

(** What a computation keeps, and what it logs, whatever its outcome. *)
Definition keeps {A} (m : M A) : Prop := ∀ c, rawPlugins (m c).1.2 = rawPlugins c.

Definition logs {A} (P : call → Prop) (m : M A) : Prop := ∀ c, Forall P (m c).2.

(** A computation that leaves Core as it is, whatever its outcome. *)
Definition still {A} (m : M A) : Prop := ∀ c, (m c).1.2 = c.

(** On a Core without recorded plugins: none is recorded and no
    [onPluginRegister] is called. *)
Definition quiet {A} (m : M A) : Prop :=
  ∀ c, rawPlugins c = [] →
    rawPlugins (m c).1.2 = [] ∧
    Forall (λ what, is_notification what = false) (m c).2.

End Legacy.

(** ** Vocabulary of the further properties *)

(** [registers_upto c entries c']: the second [forEach] takes Core from [c] to
    [c'], running through [entries] or stopping at a [register] that throws. *)
Inductive registers_upto : Core → list (Plugin * Options.t) → Core → Prop :=
| registers_upto_stop c entries : registers_upto c entries c
| registers_upto_step c entry v entries c' :
    register entry.1 (pluginsWithOverrides (plugins c) entry.2) = Ok v →
    registers_upto (registered entry v c) entries c' →
    registers_upto c (entry :: entries) c'.

(** Every available name is bound in the exposure table. *)
Definition resolvable (c : Core) : Prop :=
  ∀ x, x ∈ availablePlugins c → is_Some (plugins c !! x).

(** The member is exposed under its own name. *)
Definition plainly_named (entry : Plugin * Options.t) : Prop :=
  key entry.1 entry.2 = Metadata.name (metadata entry.1).

(** The dependency graph mentions available names only: as keys and as
    dependents. *)
Definition graph_closed (c : Core) : Prop :=
  ∀ d l, dependencyGraph c !! d = Some l →
    d ∈ availablePlugins c ∧ ∀ n, n ∈ l → n ∈ availablePlugins c.

(** The exposure keys of a batch and the names it provides. *)
Definition exposed_by (entries : list (Plugin * Options.t)) : list string :=
  entries ≫= λ entry,
    key entry.1 entry.2 :: Metadata.provides (metadata entry.1).

(** A plugin whose [init] throws, and one whose [onPluginRegister] throws. *)
Definition throwsAtInit : Plugin :=
  {| pid := 12;
     metadata := {| Metadata.name := "throwsAtInit"; Metadata.provides := [];
                    Metadata.depends := [] |};
     register := λ _, Ok (VObject 12 []);
     init := λ _, Throw (Error "init failed");
     afterInit := λ _, Ok ();
     onPluginRegister := λ _ _, Ok () |}.

Definition throwsWhenNotified : Plugin :=
  {| pid := 13;
     metadata := {| Metadata.name := "throwsWhenNotified"; Metadata.provides := [];
                    Metadata.depends := [] |};
     register := λ _, Ok (VObject 13 []);
     init := λ _, Ok ();
     afterInit := λ _, Ok ();
     onPluginRegister := λ _ _, Throw (Error "not interested") |}.

(** [overrides: { plugins: "registry" }] *)
Definition plugins_override : Options.t :=
  {| Options.name := None; Options.overrides := Some {["plugins" := "registry"]} |}.

(** * Proofs *)

(** Case analysis on membership in a batch given in full. *)
Ltac each_member H :=
  simpl in H; repeat (apply elem_of_cons in H as [->|H]);
  try (by apply elem_of_nil in H).

(** The hypotheses at hand, then the statement they give. *)
Tactic Notation "hypotheses_then" integer(n) constr(H) :=
  do n (split; [first [assumption|reflexivity]|]); exact H.


(** ** Running computations *)

Section run.
Context {A B : Type}.

Lemma run_bind (m : M A) (f : A → M B) c :
  (m ≫= f) c =
    match m c with
    | (Ok a, c', log) => let '(r, c'', log') := f a c' in (r, c'', log ++ log')
    | (Throw e, c', log) => (Throw e, c', log)
    end.
Proof. reflexivity. Qed.

Lemma run_bind_Ok (m : M A) (f : A → M B) c a c' log :
  m c = (Ok a, c', log) →
  (m ≫= f) c = ((f a c').1.1, (f a c').1.2, log ++ (f a c').2).
Proof. intros H. rewrite run_bind, H. by destruct (f a c') as [[??]?]. Qed.

Lemma run_bind_Throw (m : M A) (f : A → M B) c e c' log :
  m c = (Throw e, c', log) → (m ≫= f) c = (Throw e, c', log).
Proof. intros H. by rewrite run_bind, H. Qed.
End run.

Lemma run_forEach_cons {A} (f : A → M ()) x l c :
  forEach f (x :: l) c = (f x ;; forEach f l) c.
Proof. reflexivity. Qed.

(** A loop whose rounds all return: the steps compose, the logs concatenate. *)
Lemma run_forEach_Ok {A} (f : A → M ()) (step : A → Core → Core)
    (log : A → list call) l c :
  (∀ x c, x ∈ l → f x c = (Ok (), step x c, log x)) →
  forEach f l c = (Ok (), foldl (λ c x, step x c) c l, l ≫= log).
Proof.
  revert c. induction l as [|x l IH]; intros c Hf; [done|].
  rewrite run_forEach_cons.
  erewrite run_bind_Ok by (apply Hf; left).
  rewrite IH by (intros; apply Hf; by right). done.
Qed.

Lemma run_forEach_modify {A} (g : A → Core → Core) l c :
  forEach (λ x, modify (g x)) l c = (Ok (), foldl (λ c x, g x c) c l, []).
Proof.
  rewrite (run_forEach_Ok _ g (λ _, [])) by done.
  f_equal. induction l; [done|]. by rewrite bind_cons.
Qed.

Lemma bind_singleton_fmap {A B} (f : A → B) (l : list A) :
  l ≫= (λ x, [f x]) = f <$> l.
Proof. induction l as [|x l IH]; [done|]. by rewrite bind_cons, IH. Qed.

(** ** Sets, sorting *)

Lemma elem_of_Set_add s x y : y ∈ Set_add s x ↔ y ∈ s ∨ y = x.
Proof.
  unfold Set_add. case_decide; [|set_solver].
  split; [by left|]. intros [?| ->]; done.
Qed.

Lemma NoDup_Set_add s x : NoDup s → NoDup (Set_add s x).
Proof.
  intros Hs. unfold Set_add. case_decide; [done|].
  apply NoDup_app. split_and!; [done|set_solver|apply NoDup_singleton].
Qed.

Lemma elem_of_foldl_Set_add l s y : y ∈ foldl Set_add s l ↔ y ∈ s ∨ y ∈ l.
Proof.
  revert s. induction l as [|x l IH]; intros s; simpl; [set_solver|].
  rewrite IH, elem_of_Set_add. set_solver.
Qed.

Lemma NoDup_foldl_Set_add l s : NoDup s → NoDup (foldl Set_add s l).
Proof.
  revert s. induction l as [|x l IH]; intros s Hs; simpl; [done|].
  by apply IH, NoDup_Set_add.
Qed.

Lemma elem_of_new_Set l y : y ∈ new_Set l ↔ y ∈ l.
Proof. unfold new_Set. rewrite elem_of_foldl_Set_add. set_solver. Qed.

Lemma NoDup_new_Set l : NoDup (new_Set l).
Proof. apply NoDup_foldl_Set_add, NoDup_nil_2. Qed.

Lemma elem_of_sort l y : y ∈ sort l ↔ y ∈ l.
Proof. unfold sort. by rewrite merge_sort_Permutation. Qed.

Lemma ascending_sort l : NoDup l → ascending (sort l).
Proof.
  intros Hl.
  assert (NoDup (sort l)) as Hnd.
  { unfold sort. by rewrite merge_sort_Permutation. }
  assert (StronglySorted String.le (sort l)) as Hs.
  { apply StronglySorted_merge_sort; apply _. }
  unfold ascending. induction Hs as [|x s Hs IH Hx]; [constructor|].
  apply NoDup_cons in Hnd as [Hx' Hnd]. constructor; [by apply IH|].
  apply Forall_forall. intros y Hy. split.
  - by eapply Forall_forall in Hx.
  - intros ->. done.
Qed.

(** ** What a batch wants and offers *)

Lemma elem_of_wanted entries d :
  d ∈ wanted entries ↔
  ∃ entry, entry ∈ entries ∧ d ∈ Metadata.depends (metadata entry.1).
Proof. unfold wanted. rewrite list_elem_of_bind. naive_solver. Qed.

Lemma elem_of_offered entries d :
  d ∈ offered entries ↔
  ∃ entry, entry ∈ entries ∧
    (d = Metadata.name (metadata entry.1) ∨ d ∈ Metadata.provides (metadata entry.1)).
Proof.
  unfold offered. rewrite list_elem_of_bind.
  split; intros (entry & H1 & H2); exists entry.
  - apply elem_of_cons in H1. naive_solver.
  - split; [|done]. apply elem_of_cons. naive_solver.
Qed.

(** ** Dependency checking *)

Lemma elem_of_collect_required entries acc d :
  d ∈ (foldl collect acc entries).1 ↔ d ∈ acc.1 ∨ d ∈ wanted entries.
Proof.
  revert acc. induction entries as [|entry entries IH]; intros [req av].
  { unfold wanted. set_solver. }
  simpl. rewrite IH. simpl. rewrite elem_of_foldl_Set_add.
  unfold wanted. set_solver.
Qed.

Lemma elem_of_collect_available entries acc d :
  d ∈ (foldl collect acc entries).2 ↔ d ∈ acc.2 ∨ d ∈ offered entries.
Proof.
  revert acc. induction entries as [|entry entries IH]; intros [req av].
  { unfold offered. set_solver. }
  simpl. rewrite IH. simpl. rewrite elem_of_foldl_Set_add, elem_of_Set_add.
  unfold offered. set_solver.
Qed.

Lemma elem_of_difference c entries d :
  d ∈ difference c entries ↔ unmet (availablePlugins c) entries d.
Proof.
  unfold difference, unmet.
  pose proof (elem_of_collect_required entries
                ([], new_Set (availablePlugins c)) d) as Hr.
  pose proof (elem_of_collect_available entries
                ([], new_Set (availablePlugins c)) d) as Ha.
  destruct (foldl collect _ entries) as [req av]. simpl in *.
  rewrite elem_of_new_Set, list_elem_of_filter, Hr, Ha, elem_of_new_Set.
  rewrite elem_of_wanted, elem_of_offered. simpl.
  split.
  - intros [Hav [Hnil|Hreq]]; [by apply elem_of_nil in Hnil|].
    split_and!; [done|naive_solver|]. intros q Hq. split.
    + intros ->. apply Hav. right. eauto.
    + intros Hp. apply Hav. right. eauto.
  - intros (Hreq & Hav & Hoff). split; [|by right].
    intros [?|(q & Hq & Hd)]; [done|]. destruct (Hoff q Hq). naive_solver.
Qed.

Lemma NoDup_difference c entries : NoDup (difference c entries).
Proof. unfold difference. destruct (foldl collect _ _). apply NoDup_new_Set. Qed.

Lemma difference_nil c entries :
  difference c entries = [] ↔ satisfiable (availablePlugins c) entries.
Proof.
  unfold satisfiable. split.
  - intros H q d Hq Hd.
    destruct (decide (d ∈ availablePlugins c)) as [|Hav]; [by left|].
    destruct (decide (d ∈ offered entries)) as [Hoff|Hoff].
    { right. by apply elem_of_offered. }
    assert (d ∈ difference c entries) as Hin.
    { apply elem_of_difference. split_and!; [by eauto|done|].
      intros q' Hq'. split.
      - intros ->. apply Hoff, elem_of_offered. eauto.
      - intros Hp. apply Hoff, elem_of_offered. eauto. }
    rewrite H in Hin. by apply elem_of_nil in Hin.
  - intros H. apply elem_of_nil_inv.
    intros d [(q & Hq & Hd) [Hav Hoff]]%elem_of_difference.
    destruct (H q d Hq Hd) as [?|(q' & Hq' & Hd')]; [done|].
    destruct (Hoff q' Hq'). naive_solver.
Qed.

Lemma run_check_dependencies_Ok c entries :
  satisfiable (availablePlugins c) entries → check_dependencies entries c = (Ok (), c, []).
Proof.
  intros H%difference_nil. unfold check_dependencies.
  rewrite run_bind. unfold get. rewrite H. by case_decide.
Qed.

Lemma run_check_dependencies_Throw c entries :
  ¬ satisfiable (availablePlugins c) entries →
  check_dependencies entries c =
    (Throw (Error (unmet_message (difference c entries))), c, []).
Proof.
  intros H. unfold check_dependencies. rewrite run_bind. unfold get.
  case_decide as Hlen; [done|]. destruct H. apply difference_nil.
  destruct (difference c entries); [done|]. simpl in Hlen. lia.
Qed.

(** ** The registration loop *)

Lemma run_register_plugin entry c :
  register_plugin entry c =
    match register entry.1 (pluginsWithOverrides (plugins c) entry.2) with
    | Ok v => (Ok (), registered entry v c, [CallRegister (pid entry.1)])
    | Throw e => (Throw e, c, [CallRegister (pid entry.1)])
    end.
Proof.
  destruct entry as [p o]. unfold register_plugin. rewrite run_bind. unfold get at 1.
  rewrite run_bind. unfold invoke at 1. simpl.
  destruct (register p _) as [v|e]; [|done].
  rewrite run_bind, run_forEach_modify.
  rewrite run_bind. unfold modify at 1.
  rewrite run_bind. unfold modify at 1.
  rewrite (run_forEach_Ok _ (λ x c, push_available x (exposeAlias x v c))
             (λ _, [])) by done.
  unfold registered. simpl. do 2 f_equal.
  by induction (Metadata.provides (metadata p)).
Qed.

Lemma dependencyGraph_aliases v l c :
  dependencyGraph (foldl (λ c x, push_available x (exposeAlias x v c)) c l)
    = dependencyGraph c.
Proof.
  revert c. induction l as [|x l IH]; intros c; simpl; [done|].
  rewrite IH. unfold exposeAlias. by case_decide.
Qed.

Lemma rawPlugins_aliases v l c :
  rawPlugins (foldl (λ c x, push_available x (exposeAlias x v c)) c l) = rawPlugins c.
Proof.
  revert c. induction l as [|x l IH]; intros c; simpl; [done|].
  rewrite IH. unfold exposeAlias. by case_decide.
Qed.

Lemma availablePlugins_aliases v l c :
  availablePlugins (foldl (λ c x, push_available x (exposeAlias x v c)) c l)
    = availablePlugins c ++ l.
Proof.
  revert c. induction l as [|x l IH]; intros c; simpl; [by rewrite app_nil_r|].
  rewrite IH. simpl. rewrite <-app_assoc. f_equal.
  unfold exposeAlias. by case_decide.
Qed.

Lemma plugins_aliases v l c :
  plugins (foldl (λ c x, push_available x (exposeAlias x v c)) c l)
    = alias_all v l (plugins c).
Proof.
  revert c. induction l as [|x l IH]; intros c; simpl; [done|].
  rewrite IH. simpl. f_equal. unfold exposeAlias. by case_decide.
Qed.

Lemma plugins_edges name l c :
  plugins (foldl (λ c d, add_dependent d name c) c l) = plugins c.
Proof. revert c. induction l as [|x l IH]; intros c; simpl; [done|]. by rewrite IH. Qed.

Lemma availablePlugins_edges name l c :
  availablePlugins (foldl (λ c d, add_dependent d name c) c l) = availablePlugins c.
Proof. revert c. induction l as [|x l IH]; intros c; simpl; [done|]. by rewrite IH. Qed.

Lemma rawPlugins_edges name l c :
  rawPlugins (foldl (λ c d, add_dependent d name c) c l) = rawPlugins c.
Proof. revert c. induction l as [|x l IH]; intros c; simpl; [done|]. by rewrite IH. Qed.

Lemma plugins_registered entry v c :
  plugins (registered entry v c) =
    alias_all v (Metadata.provides (metadata entry.1))
      (<[key entry.1 entry.2 := v]> (plugins c)).
Proof. unfold registered. rewrite plugins_aliases. simpl. by rewrite plugins_edges. Qed.

Lemma availablePlugins_registered entry v c :
  availablePlugins (registered entry v c) =
    availablePlugins c ++
      Metadata.name (metadata entry.1) :: Metadata.provides (metadata entry.1).
Proof.
  unfold registered. rewrite availablePlugins_aliases. simpl.
  by rewrite availablePlugins_edges, <-app_assoc.
Qed.

Lemma rawPlugins_registered entry v c : rawPlugins (registered entry v c) = rawPlugins c.
Proof.
  unfold registered. rewrite rawPlugins_aliases. simpl. by rewrite rawPlugins_edges.
Qed.

Lemma dependencyGraph_registered entry v c :
  dependencyGraph (registered entry v c) =
    dependencyGraph
      (foldl (λ c d, add_dependent d (Metadata.name (metadata entry.1)) c) c
         (Metadata.depends (metadata entry.1))).
Proof. unfold registered. by rewrite dependencyGraph_aliases. Qed.

(** Aliases never unbind or rebind a key. *)
Lemma alias_all_lookup_Some v l t k w :
  t !! k = Some w → alias_all v l t !! k = Some w.
Proof.
  revert t. induction l as [|x l IH]; intros t Hk; simpl; [done|].
  apply IH. case_decide as Hx; [done|].
  rewrite lookup_insert_ne; [done|]. intros ->. apply Hx, elem_of_dom. eauto.
Qed.

Lemma alias_all_lookup_elem v l t k :
  k ∈ l → alias_all v l t !! k = Some v ∨ alias_all v l t !! k = t !! k ∧ is_Some (t !! k).
Proof.
  revert t. induction l as [|x l IH]; intros t Hk; [by apply elem_of_nil in Hk|].
  simpl. destruct (decide (k = x)) as [->|Hne].
  - case_decide as Hx.
    + apply elem_of_dom in Hx as [w Hw]. right.
      rewrite (alias_all_lookup_Some _ _ _ _ w); eauto.
    + left. apply alias_all_lookup_Some, lookup_insert_eq.
  - apply elem_of_cons in Hk as [?|Hk]; [done|].
    destruct (IH (if decide (x ∈ dom t) then t else <[x:=v]> t) Hk) as [?|[Heq Hs]];
      [by left|right].
    rewrite Heq. case_decide; [done|]. by rewrite lookup_insert_ne in * by done.
Qed.

Lemma alias_all_lookup_notin v l t k : k ∉ l → alias_all v l t !! k = t !! k.
Proof.
  revert t. induction l as [|x l IH]; intros t Hk; simpl; [done|].
  apply not_elem_of_cons in Hk as [? ?]. rewrite IH by done.
  case_decide; [done|]. by rewrite lookup_insert_ne.
Qed.

(** When every [register] returns, the loop runs through. *)
Lemma registers_total entries c :
  (∀ entry, entry ∈ entries → ∀ r, is_Ok (register entry.1 r)) →
  ∃ c', registers c entries c'.
Proof.
  revert c. induction entries as [|entry entries IH]; intros c H.
  { eexists. constructor. }
  destruct (H entry ltac:(left) (pluginsWithOverrides (plugins c) entry.2)) as [v Hv].
  destruct (IH (registered entry v c)) as [c' Hc']; [intros; apply H; by right|].
  exists c'. by econstructor.
Qed.

Lemma run_registers c entries c' :
  registers c entries c' →
  forEach register_plugin entries c = (Ok (), c', CallRegister <$> pids entries).
Proof.
  induction 1 as [c|c entry v entries c' Hv _ IH]; [done|].
  rewrite run_forEach_cons, run_bind, run_register_plugin, Hv, IH. done.
Qed.

Lemma registers_rawPlugins c entries c' :
  registers c entries c' → rawPlugins c' = rawPlugins c.
Proof.
  induction 1 as [|c entry v entries c' _ _ IH]; [done|].
  by rewrite IH, rawPlugins_registered.
Qed.

Lemma registers_availablePlugins c entries c' :
  registers c entries c' → availablePlugins c' = availablePlugins c ++ offered entries.
Proof.
  induction 1 as [c|c entry v entries c' _ _ IH]; [by rewrite app_nil_r|].
  rewrite IH, availablePlugins_registered. unfold offered. simpl.
  by rewrite <-!app_assoc.
Qed.

(** ** The whole call *)

Lemma foldl_const {A B} (l : list B) (a : A) : foldl (λ a _, a) a l = a.
Proof. by induction l. Qed.

(** A loop of hook calls that all return: Core is untouched, one call each. *)
Lemma run_forEach_calls (f : Plugin * Options.t → M ())
    (what : Plugin * Options.t → call) l c :
  (∀ entry c, entry ∈ l → f entry c = (Ok (), c, [what entry])) →
  forEach f l c = (Ok (), c, what <$> l).
Proof.
  intros H. rewrite (run_forEach_Ok f (λ _ c, c) (λ entry, [what entry])) by done.
  by rewrite foldl_const, bind_singleton_fmap.
Qed.

Lemma run_registerPlugins_unmet batch c :
  ¬ satisfiable (availablePlugins c) (normalize <$> batch) →
  registerPlugins batch c =
    (Throw (Error (unmet_message (difference c (normalize <$> batch)))), c, []).
Proof.
  intros H. unfold registerPlugins.
  by rewrite (run_bind_Throw _ _ _ _ _ _ (run_check_dependencies_Throw _ _ H)).
Qed.

Lemma run_registerPlugins_Ok batch c c1 :
  let entries := normalize <$> batch in
  satisfiable (availablePlugins c) entries →
  registers c entries c1 →
  (∀ entry, entry ∈ entries → returns entry.1) →
  (∀ entry, entry ∈ rawPlugins c → listens entry.1) →
  registerPlugins batch c =
    (Ok (), push_rawPlugins entries c1,
     (CallRegister <$> pids entries) ++ (CallInit <$> pids entries) ++
     (CallAfterInit <$> pids entries) ++
     notifications (pluginData entries) (rawPlugins c)).
Proof.
  intros entries Hsat Hreg Hret Hlis. unfold registerPlugins. fold entries.
  rewrite (run_bind_Ok _ _ _ _ _ _ (run_check_dependencies_Ok _ _ Hsat)).
  rewrite (run_bind_Ok _ _ _ _ _ _ (run_registers _ _ _ Hreg)).
  rewrite (run_bind_Ok _ _ _ () c1 (CallInit <$> pids entries)); last first.
  { unfold pids. rewrite <-list_fmap_compose. apply run_forEach_calls.
    intros entry c' Hin. unfold init_plugin. rewrite run_bind. unfold get, invoke.
    by rewrite (proj1 (proj2 (Hret entry Hin))). }
  rewrite (run_bind_Ok _ _ _ () c1 (CallAfterInit <$> pids entries)); last first.
  { unfold pids. rewrite <-list_fmap_compose. apply run_forEach_calls.
    intros entry c' Hin. unfold afterInit_plugin. rewrite run_bind. unfold get, invoke.
    by rewrite (proj2 (proj2 (Hret entry Hin))). }
  rewrite (run_bind_Ok _ _ _ c1 c1 []) by done.
  rewrite (run_bind_Ok _ _ _ () c1
             (notifications (pluginData entries) (rawPlugins c))); last first.
  { rewrite (registers_rawPlugins _ _ _ Hreg). apply run_forEach_calls.
    intros entry c' Hin. unfold notify_plugin. rewrite run_bind. unfold get, invoke.
    by rewrite (Hlis entry Hin). }
  unfold modify. simpl. by rewrite !app_nil_r.
Qed.

(** ** The exposure table across the registration loop *)

Lemma alias_all_lookup_cases v l t k :
  alias_all v l t !! k = t !! k ∨ alias_all v l t !! k = Some v.
Proof.
  destruct (decide (k ∈ l)) as [Hin|Hnotin].
  - destruct (alias_all_lookup_elem v l t k Hin) as [?|[? _]]; auto.
  - left. by apply alias_all_lookup_notin.
Qed.

Lemma registered_lookup_key entry v c :
  plugins (registered entry v c) !! key entry.1 entry.2 = Some v.
Proof.
  rewrite plugins_registered. apply alias_all_lookup_Some, lookup_insert_eq.
Qed.

Lemma registered_lookup_provided entry v c x :
  x ∈ Metadata.provides (metadata entry.1) →
  is_Some (plugins (registered entry v c) !! x).
Proof.
  intros Hx. rewrite plugins_registered.
  destruct (alias_all_lookup_elem v (Metadata.provides (metadata entry.1))
              (<[key entry.1 entry.2 := v]> (plugins c)) x Hx) as [->|[-> ?]]; eauto.
Qed.

Lemma registered_lookup_mono entry v c k :
  is_Some (plugins c !! k) → is_Some (plugins (registered entry v c) !! k).
Proof.
  intros [w Hw]. rewrite plugins_registered.
  destruct (decide (k = key entry.1 entry.2)) as [->|Hne].
  - exists v. apply alias_all_lookup_Some, lookup_insert_eq.
  - exists w. apply alias_all_lookup_Some. by rewrite lookup_insert_ne.
Qed.

(** A bound alias is left alone by a later plugin exposed under another key. *)
Lemma registered_lookup_bound entry v c k w :
  plugins c !! k = Some w → k ≠ key entry.1 entry.2 →
  plugins (registered entry v c) !! k = Some w.
Proof.
  intros Hw Hne. rewrite plugins_registered.
  apply alias_all_lookup_Some. by rewrite lookup_insert_ne.
Qed.

Lemma registered_lookup_cases entry v c k :
  plugins (registered entry v c) !! k = plugins c !! k ∨
  plugins (registered entry v c) !! k = Some v.
Proof.
  rewrite plugins_registered.
  destruct (alias_all_lookup_cases v (Metadata.provides (metadata entry.1))
              (<[key entry.1 entry.2 := v]> (plugins c)) k) as [->| ->]; [|by right].
  destruct (decide (k = key entry.1 entry.2)) as [->|Hne].
  - right. apply lookup_insert_eq.
  - left. by rewrite lookup_insert_ne.
Qed.

Lemma registers_lookup_mono c entries c' k :
  registers c entries c' → is_Some (plugins c !! k) → is_Some (plugins c' !! k).
Proof.
  induction 1 as [|c entry v entries c' _ _ IH]; [done|].
  intros Hk. by apply IH, registered_lookup_mono.
Qed.

Lemma registers_bound c entries c' entry :
  registers c entries c' → entry ∈ entries →
  is_Some (plugins c' !! key entry.1 entry.2) ∧
  ∀ x, x ∈ Metadata.provides (metadata entry.1) → is_Some (plugins c' !! x).
Proof.
  induction 1 as [|c entry0 v entries c' _ Hrest IH]; intros Hin.
  { by apply elem_of_nil in Hin. }
  apply elem_of_cons in Hin as [->|Hin]; [|by apply IH].
  split.
  - eapply registers_lookup_mono; [done|]. rewrite registered_lookup_key. eauto.
  - intros x Hx. eapply registers_lookup_mono; [done|].
    by apply registered_lookup_provided.
Qed.

Lemma registers_defined c entries c' :
  registers c entries c' →
  (∀ k, plugins c !! k ≠ Some VUndefined) →
  (∀ entry r, entry ∈ entries → register entry.1 r ≠ Ok VUndefined) →
  ∀ k, plugins c' !! k ≠ Some VUndefined.
Proof.
  induction 1 as [|c entry v entries c' Hv _ IH]; intros Hc Hreg; [done|].
  apply IH.
  - intros k. destruct (registered_lookup_cases entry v c k) as [->| ->]; [done|].
    intros [= ->]. by eapply Hreg; [left|].
  - intros entry' r Hin. apply Hreg. by right.
Qed.

Lemma sample_returns id name provides depends : returns (sample id name provides depends).
Proof. split_and!; intros; [by eexists|done..]. Qed.

(** ** Counting notifications *)

Lemma filter_notification_app (P : call → bool) (l1 l2 : list call) :
  filter (λ what, P what = true) (l1 ++ l2)
    = filter (λ what, P what = true) l1 ++ filter (λ what, P what = true) l2.
Proof. apply filter_app. Qed.

Lemma filter_no_notification (P : call → bool) (f : nat → call) (l : list nat) :
  (∀ p, P (f p) = false) → filter (λ what, P what = true) (f <$> l) = [].
Proof.
  intros H. induction l as [|p l IH]; [done|].
  rewrite fmap_cons, filter_cons_False; [done|]. by rewrite H.
Qed.

Lemma filter_notifications data entries :
  filter (λ what, is_notification what = true) (notifications data entries)
    = notifications data entries.
Proof.
  induction entries as [|entry entries IH]; [done|].
  unfold notifications in *. rewrite fmap_cons, filter_cons_True by done.
  by rewrite IH.
Qed.

Lemma notified_notifications p data entries :
  notified p (notifications data entries) = occurrences p entries.
Proof.
  unfold notified, occurrences, notifications.
  induction entries as [|entry entries IH]; [done|].
  rewrite fmap_cons. destruct (decide (pid entry.1 = p)) as [Heq|Hne].
  - rewrite !filter_cons_True; [simpl; by rewrite IH|done|].
    simpl. by apply bool_decide_eq_true.
  - rewrite !filter_cons_False; [done|done|].
    simpl. rewrite bool_decide_eq_true. naive_solver.
Qed.

(** The calls of the lifecycle of one batch, phase after phase. *)
Lemma filter_lifecycle_notifications (l : list nat) data prior :
  filter (λ what, is_notification what = true)
    ((CallRegister <$> l) ++ (CallInit <$> l) ++ (CallAfterInit <$> l) ++
     notifications data prior) = notifications data prior.
Proof.
  rewrite !filter_notification_app, !filter_no_notification by done.
  apply filter_notifications.
Qed.

Lemma notified_lifecycle p (l : list nat) data prior :
  notified p
    ((CallRegister <$> l) ++ (CallInit <$> l) ++ (CallAfterInit <$> l) ++
     notifications data prior) = occurrences p prior.
Proof.
  unfold notified.
  rewrite !(filter_notification_app (is_notification_of p)).
  rewrite !(filter_no_notification (is_notification_of p)) by done.
  apply notified_notifications.
Qed.

Lemma run_hook_loop_init entries c :
  (∀ entry, entry ∈ entries → returns entry.1) →
  forEach init_plugin entries c = (Ok (), c, CallInit <$> pids entries).
Proof.
  intros Hret. unfold pids. rewrite <-list_fmap_compose. apply run_forEach_calls.
  intros entry c' Hin. unfold init_plugin. rewrite run_bind. unfold get, invoke.
  by rewrite (proj1 (proj2 (Hret entry Hin))).
Qed.

Lemma run_hook_loop_afterInit entries c :
  (∀ entry, entry ∈ entries → returns entry.1) →
  forEach afterInit_plugin entries c = (Ok (), c, CallAfterInit <$> pids entries).
Proof.
  intros Hret. unfold pids. rewrite <-list_fmap_compose. apply run_forEach_calls.
  intros entry c' Hin. unfold afterInit_plugin. rewrite run_bind. unfold get, invoke.
  by rewrite (proj2 (proj2 (Hret entry Hin))).
Qed.

Lemma run_register_plugin_Ok entry c v :
  register entry.1 (pluginsWithOverrides (plugins c) entry.2) = Ok v →
  register_plugin entry c = (Ok (), registered entry v c, [CallRegister (pid entry.1)]).
Proof. intros H. by rewrite run_register_plugin, H. Qed.

Lemma pluginsWithOverrides_empty exposed k :
  pluginsWithOverrides exposed Options.empty k = Ok (default VUndefined (exposed !! k)).
Proof. unfold pluginsWithOverrides. simpl. by rewrite decide_False by set_solver. Qed.

(** ** The dependency graph across the registration loop *)

Lemma lookup_edges n l c d :
  let g' := dependencyGraph (foldl (λ c x, add_dependent x n c) c l) in
  default [] (g' !! d)
    = default [] (dependencyGraph c !! d) ++ ((λ _, n) <$> filter (λ x, x = d) l) ∧
  (d ∈ dom g' ↔ d ∈ dom (dependencyGraph c) ∨ d ∈ l).
Proof.
  revert c. induction l as [|x l IH]; intros c; simpl.
  { rewrite app_nil_r. set_solver. }
  destruct (IH (add_dependent x n c)) as [IH1 IH2]. simpl in IH1, IH2.
  rewrite IH1, IH2, dom_insert. split.
  - destruct (decide (x = d)) as [->|Hne].
    + rewrite lookup_insert_eq, filter_cons_True by done. simpl.
      by rewrite <-app_assoc.
    + by rewrite lookup_insert_ne, filter_cons_False by done.
  - set_solver.
Qed.

Lemma lookup_registered_graph entry v c d :
  let g' := dependencyGraph (registered entry v c) in
  default [] (g' !! d)
    = default [] (dependencyGraph c !! d) ++ dependents d [entry] ∧
  (d ∈ dom g' ↔
   d ∈ dom (dependencyGraph c) ∨ d ∈ Metadata.depends (metadata entry.1)).
Proof.
  simpl. rewrite dependencyGraph_registered. unfold dependents. simpl.
  rewrite app_nil_r. apply lookup_edges.
Qed.

Lemma dependents_cons d entry entries :
  dependents d (entry :: entries) = dependents d [entry] ++ dependents d entries.
Proof. unfold dependents. simpl. by rewrite app_nil_r. Qed.

Lemma registers_graph c entries c' d :
  registers c entries c' →
  default [] (dependencyGraph c' !! d)
    = default [] (dependencyGraph c !! d) ++ dependents d entries ∧
  (d ∈ dom (dependencyGraph c') ↔
   d ∈ dom (dependencyGraph c) ∨
   ∃ entry, entry ∈ entries ∧ d ∈ Metadata.depends (metadata entry.1)).
Proof.
  induction 1 as [c|c entry v entries c' _ _ [IH1 IH2]].
  { split; [by rewrite app_nil_r|]. set_solver. }
  destruct (lookup_registered_graph entry v c d) as [H1 H2]. simpl in H1, H2.
  rewrite IH1, IH2, H1, H2, dependents_cons, <-app_assoc. split; [done|].
  set_solver.
Qed.

(** ** The argument of the notifications *)

Lemma pluginData_snoc entries entry :
  pluginData (entries ++ [entry]) = Metadata.object (metadata entry.1).
Proof. unfold pluginData. by rewrite foldl_app. Qed.

(** What the [reduce] leaves: the metadata object of the last member. *)
Lemma pluginData_last entries :
  pluginData entries =
    match last entries with
    | Some entry => Metadata.object (metadata entry.1)
    | None => []
    end.
Proof.
  destruct entries as [|entry entries _] using rev_ind; [done|].
  by rewrite pluginData_snoc, last_snoc.
Qed.

(** ** The view *)

Lemma read_view_plugins_own stack exposed own :
  "plugins" ∈ own → read_view stack exposed own "plugins" = Throw RangeError.
Proof.
  intros Hown. induction stack as [|stack IH]; simpl.
  - by rewrite decide_True.
  - rewrite decide_True by done. by rewrite IH.
Qed.

Lemma read_view_inherited stack exposed own k :
  k ∉ own → read_view (S stack) exposed own k = Ok (default VUndefined (exposed !! k)).
Proof. intros Hk. simpl. rewrite decide_False by done. by destruct (exposed !! k). Qed.

(** Whatever the stack left, as long as there is a frame for the getter of
    the view and one for the getter of the exposure table. *)
Lemma read_view_pluginsWithOverrides stack exposed options k :
  read_view (S (S stack)) exposed (overrideKeys options) k
    = pluginsWithOverrides exposed options k.
Proof.
  unfold pluginsWithOverrides. case_decide as Hk; [|by apply read_view_inherited].
  change (read_view (S (S stack)) exposed (overrideKeys options) k) with
    (if decide (k ∈ overrideKeys options) then
       match read_view (S stack) exposed (overrideKeys options) "plugins" with
       | Ok p => get_property p k
       | Throw e => Throw e
       end
     else match exposed !! k with Some v => Ok v | None => Ok VUndefined end).
  rewrite decide_True by done. case_decide as Hp.
  - by rewrite read_view_plugins_own.
  - by rewrite read_view_inherited.
Qed.

(** A key without an override is read from the exposure table. *)
Lemma pluginsWithOverrides_inherited exposed options k :
  k ∉ overrideKeys options →
  pluginsWithOverrides exposed options k = Ok (default VUndefined (exposed !! k)).
Proof. intros Hk. unfold pluginsWithOverrides. by rewrite decide_False. Qed.

(** A key with an override is read, not from the exposure table under the
    mapped key, but from whatever is exposed under ["plugins"]. *)
Lemma pluginsWithOverrides_own exposed options k :
  k ∈ overrideKeys options → "plugins" ∉ overrideKeys options →
  pluginsWithOverrides exposed options k
    = get_property (default VUndefined (exposed !! "plugins")) k.
Proof.
  intros Hk Hp. unfold pluginsWithOverrides.
  by rewrite decide_True, decide_False.
Qed.

Lemma nobody_listens_yet :
  ∀ entry, entry ∈ rawPlugins constructor → listens entry.1.
Proof. intros entry H. each_member H. Qed.

(** ** Concrete runs *)

Example run_unmet_sorted :
  (registerPlugins [Bare (sample 10 "p" [] ["zeta"; "alpha"; "zeta"; "p"])]
     constructor).1.1
    = Throw (Error "Unmet dependencies: alpha, zeta").
Proof. vm_compute. reflexivity. Qed.

Example run_circular_log :
  (registerPlugins [Bare circularDependencyA; Bare circularDependencyB] constructor).2
    = [CallRegister 3; CallRegister 4; CallInit 3; CallInit 4;
       CallAfterInit 3; CallAfterInit 4].
Proof. vm_compute. reflexivity. Qed.

Example run_alias_first_wins :
  let batch := [Bare windowEvents; Bare (sample 8 "domEvents" ["events"] [])] in
  plugins (registerPlugins batch constructor).1.2 !! "events" = Some (VObject 5 []) ∧
  availablePlugins (registerPlugins batch constructor).1.2
    = ["windowEvents"; "events"; "domEvents"; "events"].
Proof. split; vm_compute; reflexivity. Qed.

Example run_two_member_pluginData :
  pluginData [(examplePlugin, Options.empty); (hasDependency, custom_name)]
    = Metadata.object (metadata hasDependency).
Proof. reflexivity. Qed.

(** With something exposed under ["plugins"], an overridden key reads a
    property of that value. *)
Example run_override_reads_plugins_property :
  pluginsWithOverrides
    {[ "plugins" := VObject 11 [("logger", VNull)]; "customLogger" := VObject 6 [] ]}
    logger_override "logger" = Ok VNull.
Proof. vm_compute. reflexivity. Qed.

(** * The claims *)

(** C1, on a Core where a logger is exposed under ["customLogger"], for a
    plugin registered with [overrides: { logger: "customLogger" }]: reading
    [logger] from the view throws a [TypeError] where the claim has the value
    exposed under ["customLogger"], and so does the call when the plugin's
    [register] reads it. *)
Theorem override_reads_wrong_object :
  let c1 := (registerPlugins [Pair logger as_customLogger] constructor).1.2 in
  (registerPlugins [Pair logger as_customLogger] constructor).1.1 = Ok () ∧
  plugins c1 !! "customLogger" = Some (VObject 6 []) ∧
  "logger" ∈ overrideKeys logger_override ∧
  pluginsWithOverrides (plugins c1) logger_override "logger" = Throw TypeError ∧
  (∀ stack, read_view stack (plugins c1) (overrideKeys logger_override) "logger"
            ≠ Ok (VObject 6 [])) ∧
  registerPlugins [Pair usesLogger logger_override] c1
    = (Throw TypeError, c1, [CallRegister 7]).
Proof.
  intros c1.
  assert ("logger" ∈ overrideKeys logger_override) as Hown.
  { by apply (bool_decide_unpack _). }
  assert ("plugins" ∉ overrideKeys logger_override) as Hplugins.
  { by apply (bool_decide_unpack _). }
  split_and!.
  - reflexivity.
  - vm_compute. reflexivity.
  - done.
  - by rewrite pluginsWithOverrides_own.
  - intros [|[|stack]].
    + simpl. by rewrite decide_True.
    + simpl. by rewrite decide_True.
    + rewrite read_view_pluginsWithOverrides.
      by rewrite pluginsWithOverrides_own.
  - unfold registerPlugins.
    rewrite (run_bind_Ok _ _ _ () c1 []); last first.
    { apply run_check_dependencies_Ok. intros q d ->%list_elem_of_singleton Hd.
      apply list_elem_of_singleton in Hd as ->. left. vm_compute. left. }
    simpl fmap. rewrite (run_bind_Throw _ _ _ TypeError c1 [CallRegister 7]); [done|].
    rewrite run_forEach_cons.
    apply run_bind_Throw. rewrite run_register_plugin. simpl.
    by rewrite pluginsWithOverrides_own.
Qed.

(** C2. When some member of the batch depends on a name that is neither
    already available nor the name or a [provides] entry of a member,
    [registerPlugins] throws the error whose message is
    ["Unmet dependencies: "] followed by exactly the unmet names, in strictly
    ascending order and separated by [", "]; no hook has been called and
    Core (exposure table, available names, dependency graph, raw plugin
    list) is as before. *)
Theorem unmet_dependencies_abort (batch : list item) (c : Core) (d : string) :
  unmet (availablePlugins c) (normalize <$> batch) d →
  ∃ missing,
    registerPlugins batch c =
      (Throw (Error ("Unmet dependencies: " +:+ join ", " missing)), c, []) ∧
    ascending missing ∧
    ∀ x, x ∈ missing ↔ unmet (availablePlugins c) (normalize <$> batch) x.
Proof.
  intros Hd. exists (sort (difference c (normalize <$> batch))). split_and!.
  - apply run_registerPlugins_unmet. intros Hsat.
    apply difference_nil in Hsat. apply elem_of_difference in Hd.
    rewrite Hsat in Hd. by apply elem_of_nil in Hd.
  - apply ascending_sort, NoDup_difference.
  - intros x. by rewrite elem_of_sort, elem_of_difference.
Qed.

Lemma unmet_dependencies_abort_witness :
  let c := constructor in
  let batch := [Bare hasDependency] in
  unmet (availablePlugins c) (normalize <$> batch) "example" ∧
  ∃ missing,
    registerPlugins batch c =
      (Throw (Error ("Unmet dependencies: " +:+ join ", " missing)), c, []) ∧
    ascending missing ∧
    ∀ x, x ∈ missing ↔ unmet (availablePlugins c) (normalize <$> batch) x.
Proof.
  intros c batch.
  assert (unmet (availablePlugins c) (normalize <$> batch) "example") as H.
  { split_and!.
    - eexists. split; [left|]. simpl. left.
    - simpl. apply not_elem_of_nil.
    - intros q ->%list_elem_of_singleton. simpl. split; [done|apply not_elem_of_nil]. }
  split; [exact H|].
  exact (unmet_dependencies_abort batch c "example" H).
Defined.

(** C3, as the code has it. When every dependency of the batch is already
    available or offered by the batch and no hook throws, [registerPlugins]
    returns, and afterwards the exposure key of every member ([options.name]
    when it is a non-empty string, else [metadata.name]) and every name in
    its [provides] is bound in the exposure table; the bound values are
    defined provided nothing was bound to [undefined] before and no
    [register] of the batch returns [undefined]. *)
Theorem registered_keys_resolvable (batch : list item) (c : Core) :
  satisfiable (availablePlugins c) (normalize <$> batch) →
  (∀ entry, entry ∈ normalize <$> batch → returns entry.1) →
  (∀ entry, entry ∈ rawPlugins c → listens entry.1) →
  ∃ c' log,
    registerPlugins batch c = (Ok (), c', log) ∧
    (∀ entry, entry ∈ normalize <$> batch →
       is_Some (plugins c' !! key entry.1 entry.2) ∧
       ∀ x, x ∈ Metadata.provides (metadata entry.1) → is_Some (plugins c' !! x)) ∧
    ((∀ k, plugins c !! k ≠ Some VUndefined) →
     (∀ entry r, entry ∈ normalize <$> batch → register entry.1 r ≠ Ok VUndefined) →
     ∀ k, plugins c' !! k ≠ Some VUndefined).
Proof.
  intros Hsat Hret Hlis.
  destruct (registers_total (normalize <$> batch) c) as [c1 Hreg].
  { intros entry Hin. apply (Hret entry Hin). }
  eexists _, _. split_and!.
  - by apply (run_registerPlugins_Ok batch c c1).
  - intros entry Hin. by apply (registers_bound c (normalize <$> batch) c1).
  - intros Hc Hdef. by apply (registers_defined c (normalize <$> batch) c1).
Qed.

Lemma registered_keys_resolvable_witness :
  satisfiable (availablePlugins constructor) (normalize <$> custom_batch) ∧
  (∀ entry, entry ∈ normalize <$> custom_batch → returns entry.1) ∧
  (∀ entry, entry ∈ rawPlugins constructor → listens entry.1) ∧
  ∃ c' log,
    registerPlugins custom_batch constructor = (Ok (), c', log) ∧
    (∀ entry, entry ∈ normalize <$> custom_batch →
       is_Some (plugins c' !! key entry.1 entry.2) ∧
       ∀ x, x ∈ Metadata.provides (metadata entry.1) → is_Some (plugins c' !! x)) ∧
    ((∀ k, plugins constructor !! k ≠ Some VUndefined) →
     (∀ entry r, entry ∈ normalize <$> custom_batch →
        register entry.1 r ≠ Ok VUndefined) →
     ∀ k, plugins c' !! k ≠ Some VUndefined).
Proof.
  assert (satisfiable (availablePlugins constructor) (normalize <$> custom_batch)) as H1.
  { intros q d' Hq Hd. simpl in Hq.
    apply elem_of_cons in Hq as [->|Hq]; [by apply elem_of_nil in Hd|].
    apply list_elem_of_singleton in Hq as ->. by apply elem_of_nil in Hd. }
  assert (∀ entry, entry ∈ normalize <$> custom_batch → returns entry.1) as H2.
  { intros entry Hin. simpl in Hin.
    apply elem_of_cons in Hin as [->|Hin]; [apply sample_returns|].
    apply list_elem_of_singleton in Hin as ->. apply sample_returns. }
  assert (∀ entry, entry ∈ rawPlugins constructor → listens entry.1) as H3.
  { intros entry Hin. by apply elem_of_nil in Hin. }
  split_and!; [done..|].
  exact (registered_keys_resolvable custom_batch constructor H1 H2 H3).
Defined.

(** C3 fails as stated: a plugin registered under a name of the caller's
    choosing is not resolvable under its declared name; and a plugin whose
    [register] returns [undefined] is bound to [undefined]. *)
Lemma declared_name_not_resolvable :
  let batch := [Pair examplePlugin custom_name] in
  let nothing := [Bare exposesNothing] in
  (satisfiable (availablePlugins constructor) (normalize <$> batch) ∧
   (∀ entry, entry ∈ normalize <$> batch → returns entry.1) ∧
   (registerPlugins batch constructor).1.1 = Ok () ∧
   Metadata.name (metadata examplePlugin) = "example" ∧
   plugins (registerPlugins batch constructor).1.2 !! "example" = None) ∧
  (satisfiable (availablePlugins constructor) (normalize <$> nothing) ∧
   (∀ entry, entry ∈ normalize <$> nothing → returns entry.1) ∧
   (registerPlugins nothing constructor).1.1 = Ok () ∧
   Metadata.name (metadata exposesNothing) = "nothing" ∧
   plugins (registerPlugins nothing constructor).1.2 !! "nothing" = Some VUndefined).
Proof.
  split; split_and!.
  - intros q d' ->%list_elem_of_singleton Hd. by apply elem_of_nil in Hd.
  - intros entry ->%list_elem_of_singleton. apply sample_returns.
  - reflexivity.
  - reflexivity.
  - vm_compute. reflexivity.
  - intros q d' ->%list_elem_of_singleton Hd. by apply elem_of_nil in Hd.
  - intros entry ->%list_elem_of_singleton. split_and!; intros; [by eexists|done..].
  - reflexivity.
  - reflexivity.
  - vm_compute. reflexivity.
Qed.

(** C4. Two plugins that depend on each other, given together and without
    options, whose [register] returns and whose [init] and [afterInit] may
    throw unless the view they kept from [register] gives them the value the
    other one exposed: the call succeeds. The [init] and [afterInit] loops
    run on the Core [c1] left by the whole registration loop, each hook is
    called on the plugin's view reading [c1], and that view reads the value
    the other plugin exposed, although the view of the first was made, and
    read at its [register], before the second registered. *)
Theorem circular_dependencies (c : Core) (A B : Plugin) (a b : string)
    (vA vB : value) :
  let entries := [(A, Options.empty); (B, Options.empty)] in
  let cA := registered (A, Options.empty) vA c in
  let c1 := registered (B, Options.empty) vB cA in
  a ≠ b →
  Metadata.name (metadata A) = a → Metadata.depends (metadata A) = [b] →
  Metadata.name (metadata B) = b → Metadata.depends (metadata B) = [a] →
  register A (pluginsWithOverrides (plugins c) Options.empty) = Ok vA →
  register B (pluginsWithOverrides (plugins cA) Options.empty) = Ok vB →
  (∀ r : view, r b = Ok vB → init A r = Ok () ∧ afterInit A r = Ok ()) →
  (∀ r : view, r a = Ok vA → init B r = Ok () ∧ afterInit B r = Ok ()) →
  (∀ entry, entry ∈ rawPlugins c → listens entry.1) →
  register_plugin (A, Options.empty) c = (Ok (), cA, [CallRegister (pid A)]) ∧
  register_plugin (B, Options.empty) cA = (Ok (), c1, [CallRegister (pid B)]) ∧
  forEach init_plugin entries c1 = (Ok (), c1, [CallInit (pid A); CallInit (pid B)]) ∧
  forEach afterInit_plugin entries c1
    = (Ok (), c1, [CallAfterInit (pid A); CallAfterInit (pid B)]) ∧
  afterInit_plugin (A, Options.empty) c1
    = (afterInit A (pluginsWithOverrides (plugins c1) Options.empty), c1,
       [CallAfterInit (pid A)]) ∧
  afterInit_plugin (B, Options.empty) c1
    = (afterInit B (pluginsWithOverrides (plugins c1) Options.empty), c1,
       [CallAfterInit (pid B)]) ∧
  registerPlugins [Bare A; Bare B] c
    = (Ok (), push_rawPlugins entries c1,
       [CallRegister (pid A); CallRegister (pid B); CallInit (pid A); CallInit (pid B);
        CallAfterInit (pid A); CallAfterInit (pid B)] ++
       notifications (pluginData entries) (rawPlugins c)) ∧
  pluginsWithOverrides (plugins c1) Options.empty b = Ok vB ∧
  pluginsWithOverrides (plugins c1) Options.empty a = Ok vA ∧
  pluginsWithOverrides (plugins c) Options.empty b
    = Ok (default VUndefined (plugins c !! b)).
Proof.
  intros entries cA c1 Hab HnA HdA HnB HdB HvA HvB HhooksA HhooksB Hlis.
  assert (plugins c1 !! b = Some vB) as Hb.
  { rewrite <-HnB. apply (registered_lookup_key (B, Options.empty) vB cA). }
  assert (plugins c1 !! a = Some vA) as Ha.
  { apply registered_lookup_bound.
    - rewrite <-HnA. apply (registered_lookup_key (A, Options.empty) vA c).
    - unfold key. simpl. by rewrite HnB. }
  assert (pluginsWithOverrides (plugins c1) Options.empty b = Ok vB) as HrB.
  { by rewrite pluginsWithOverrides_empty, Hb. }
  assert (pluginsWithOverrides (plugins c1) Options.empty a = Ok vA) as HrA.
  { by rewrite pluginsWithOverrides_empty, Ha. }
  destruct (HhooksA _ HrB) as [HinitA HafterA].
  destruct (HhooksB _ HrA) as [HinitB HafterB].
  assert (registers c entries c1) as Hreg by by repeat econstructor.
  assert (forEach init_plugin entries c1
            = (Ok (), c1, [CallInit (pid A); CallInit (pid B)])) as Hinit.
  { unfold entries. rewrite run_forEach_cons.
    rewrite (run_bind_Ok _ _ _ () c1 [CallInit (pid A)]); last first.
    { unfold init_plugin. rewrite run_bind. unfold get, invoke. simpl.
      by rewrite HinitA. }
    rewrite run_forEach_cons.
    rewrite (run_bind_Ok _ _ _ () c1 [CallInit (pid B)]); last first.
    { unfold init_plugin. rewrite run_bind. unfold get, invoke. simpl.
      by rewrite HinitB. }
    done. }
  assert (forEach afterInit_plugin entries c1
            = (Ok (), c1, [CallAfterInit (pid A); CallAfterInit (pid B)])) as Hafter.
  { unfold entries. rewrite run_forEach_cons.
    rewrite (run_bind_Ok _ _ _ () c1 [CallAfterInit (pid A)]); last first.
    { unfold afterInit_plugin. rewrite run_bind. unfold get, invoke. simpl.
      by rewrite HafterA. }
    rewrite run_forEach_cons.
    rewrite (run_bind_Ok _ _ _ () c1 [CallAfterInit (pid B)]); last first.
    { unfold afterInit_plugin. rewrite run_bind. unfold get, invoke. simpl.
      by rewrite HafterB. }
    done. }
  split_and!.
  - by apply run_register_plugin_Ok.
  - by apply run_register_plugin_Ok.
  - done.
  - done.
  - done.
  - done.
  - assert (satisfiable (availablePlugins c) entries) as Hsat.
    { intros q d [-> | ->%list_elem_of_singleton]%elem_of_cons Hd; simpl in Hd.
      - rewrite HdA in Hd. apply list_elem_of_singleton in Hd as ->.
        right. exists (B, Options.empty). split; [by right; left|by left].
      - rewrite HdB in Hd. apply list_elem_of_singleton in Hd as ->.
        right. exists (A, Options.empty). split; [by left|by left]. }
    unfold registerPlugins. change (normalize <$> [Bare A; Bare B]) with entries.
    rewrite (run_bind_Ok _ _ _ _ _ _ (run_check_dependencies_Ok _ _ Hsat)).
    rewrite (run_bind_Ok _ _ _ _ _ _ (run_registers _ _ _ Hreg)).
    rewrite (run_bind_Ok _ _ _ _ _ _ Hinit).
    rewrite (run_bind_Ok _ _ _ _ _ _ Hafter).
    rewrite (run_bind_Ok _ _ _ c1 c1 []) by done.
    rewrite (run_bind_Ok _ _ _ () c1
               (notifications (pluginData entries) (rawPlugins c))); last first.
    { rewrite (registers_rawPlugins _ _ _ Hreg). apply run_forEach_calls.
      intros entry c' Hin. unfold notify_plugin. rewrite run_bind. unfold get, invoke.
      by rewrite (Hlis entry Hin). }
    unfold modify. simpl. by rewrite !app_nil_r.
  - done.
  - done.
  - apply pluginsWithOverrides_empty.
Qed.

Lemma circular_dependencies_witness :
  let A := usesCircularB in
  let B := usesCircularA in
  let a := "circularDependencyA" in
  let b := "circularDependencyB" in
  let vA := VObject 14 [] in
  let vB := VObject 15 [] in
  let c := constructor in
  let entries := [(A, Options.empty); (B, Options.empty)] in
  let cA := registered (A, Options.empty) vA c in
  let c1 := registered (B, Options.empty) vB cA in
  a ≠ b ∧
  Metadata.name (metadata A) = a ∧ Metadata.depends (metadata A) = [b] ∧
  Metadata.name (metadata B) = b ∧ Metadata.depends (metadata B) = [a] ∧
  register A (pluginsWithOverrides (plugins c) Options.empty) = Ok vA ∧
  register B (pluginsWithOverrides (plugins cA) Options.empty) = Ok vB ∧
  (∀ r : view, r b = Ok vB → init A r = Ok () ∧ afterInit A r = Ok ()) ∧
  (∀ r : view, r a = Ok vA → init B r = Ok () ∧ afterInit B r = Ok ()) ∧
  (∀ entry, entry ∈ rawPlugins c → listens entry.1) ∧
  register_plugin (A, Options.empty) c = (Ok (), cA, [CallRegister (pid A)]) ∧
  register_plugin (B, Options.empty) cA = (Ok (), c1, [CallRegister (pid B)]) ∧
  forEach init_plugin entries c1 = (Ok (), c1, [CallInit (pid A); CallInit (pid B)]) ∧
  forEach afterInit_plugin entries c1
    = (Ok (), c1, [CallAfterInit (pid A); CallAfterInit (pid B)]) ∧
  afterInit_plugin (A, Options.empty) c1
    = (afterInit A (pluginsWithOverrides (plugins c1) Options.empty), c1,
       [CallAfterInit (pid A)]) ∧
  afterInit_plugin (B, Options.empty) c1
    = (afterInit B (pluginsWithOverrides (plugins c1) Options.empty), c1,
       [CallAfterInit (pid B)]) ∧
  registerPlugins [Bare A; Bare B] c
    = (Ok (), push_rawPlugins entries c1,
       [CallRegister (pid A); CallRegister (pid B); CallInit (pid A); CallInit (pid B);
        CallAfterInit (pid A); CallAfterInit (pid B)] ++
       notifications (pluginData entries) (rawPlugins c)) ∧
  pluginsWithOverrides (plugins c1) Options.empty b = Ok vB ∧
  pluginsWithOverrides (plugins c1) Options.empty a = Ok vA ∧
  pluginsWithOverrides (plugins c) Options.empty b
    = Ok (default VUndefined (plugins c !! b)).
Proof.
  intros A B a b vA vB c entries cA c1.
  assert (a ≠ b) as H1 by done.
  assert (∀ r : view, r b = Ok vB → init A r = Ok () ∧ afterInit A r = Ok ()) as H8.
  { intros r Hr. simpl. fold b. by rewrite Hr. }
  assert (∀ r : view, r a = Ok vA → init B r = Ok () ∧ afterInit B r = Ok ()) as H9.
  { intros r Hr. simpl. fold a. by rewrite Hr. }
  pose proof nobody_listens_yet as H10.
  hypotheses_then 10
    (circular_dependencies c A B a b vA vB H1 eq_refl eq_refl eq_refl eq_refl
       eq_refl eq_refl H8 H9 H10).
Defined.

(** C5. Exposing under the primary key rebinds the key whatever was there;
    exposing under an alias does nothing when the key is bound, and binds it
    otherwise. So, for two plugins registered one after the other: when both
    have the same primary key, the key ends up bound to the value of the
    later one; when both list [svc] in [provides], [svc] was free before and
    is not the primary key of the later one, [svc] ends up bound to the value
    of the earlier one. *)
Theorem exposure_policy (c : Core) (iX iY : item) :
  let eX := normalize iX in
  let eY := normalize iY in
  satisfiable (availablePlugins c) [eX; eY] →
  returns eX.1 → returns eY.1 →
  (∀ entry, entry ∈ rawPlugins c → listens entry.1) →
  (∀ k v c0, plugins (expose k v c0) !! k = Some v) ∧
  (∀ k v c0, is_Some (plugins c0 !! k) → exposeAlias k v c0 = c0) ∧
  (∀ k v c0, plugins c0 !! k = None → plugins (exposeAlias k v c0) !! k = Some v) ∧
  ∃ vX cX vY c' log,
    register eX.1 (pluginsWithOverrides (plugins c) eX.2) = Ok vX ∧
    register_plugin eX c = (Ok (), cX, [CallRegister (pid eX.1)]) ∧
    register eY.1 (pluginsWithOverrides (plugins cX) eY.2) = Ok vY ∧
    registerPlugins [iX; iY] c = (Ok (), c', log) ∧
    (∀ k, key eX.1 eX.2 = k → key eY.1 eY.2 = k → plugins c' !! k = Some vY) ∧
    (∀ svc,
       svc ∈ Metadata.provides (metadata eX.1) →
       svc ∈ Metadata.provides (metadata eY.1) →
       plugins c !! svc = None → key eY.1 eY.2 ≠ svc →
       plugins c' !! svc = Some vX).
Proof.
  intros eX eY Hsat HretX HretY Hlis. split_and!.
  - intros k v c0. apply lookup_insert_eq.
  - intros k v c0 Hk. unfold exposeAlias. by rewrite decide_True by by apply elem_of_dom.
  - intros k v c0 Hk. unfold exposeAlias.
    rewrite decide_False by by apply not_elem_of_dom. apply lookup_insert_eq.
  - destruct (proj1 HretX (pluginsWithOverrides (plugins c) eX.2)) as [vX HvX].
    pose (cX := registered eX vX c).
    destruct (proj1 HretY (pluginsWithOverrides (plugins cX) eY.2)) as [vY HvY].
    pose (cY := registered eY vY cX).
    exists vX, cX, vY. eexists (push_rawPlugins [eX; eY] cY), _. split_and!.
    + done.
    + by apply run_register_plugin_Ok.
    + done.
    + apply (run_registerPlugins_Ok [iX; iY] c cY); [done| | |done].
      2: by intros ? [-> | ->%list_elem_of_singleton]%elem_of_cons.
      econstructor; [exact HvX|]. econstructor; [exact HvY|]. constructor.
    + intros k _ <-. apply registered_lookup_key.
    + intros svc HsX HsY Hfree Hkey. simpl.
      apply registered_lookup_bound; [|done].
      unfold cX. rewrite plugins_registered.
      destruct (alias_all_lookup_elem vX (Metadata.provides (metadata eX.1))
                  (<[key eX.1 eX.2 := vX]> (plugins c)) svc HsX) as [?|[Heq Hsome]];
        [done|].
      rewrite Heq. destruct (decide (svc = key eX.1 eX.2)) as [->|Hne].
      * apply lookup_insert_eq.
      * rewrite lookup_insert_ne, Hfree in Hsome by done. by destruct Hsome.
Qed.

(** Two providers of ["events"], the second registered under the key of the
    first. *)
Lemma exposure_policy_witness :
  let c := constructor in
  let iX := Bare windowEvents in
  let iY := Pair (sample 8 "domEvents" ["events"] [])
              {| Options.name := Some "windowEvents"; Options.overrides := None |} in
  let eX := normalize iX in
  let eY := normalize iY in
  satisfiable (availablePlugins c) [eX; eY] ∧
  returns eX.1 ∧ returns eY.1 ∧
  (∀ entry, entry ∈ rawPlugins c → listens entry.1) ∧
  (∀ k v c0, plugins (expose k v c0) !! k = Some v) ∧
  (∀ k v c0, is_Some (plugins c0 !! k) → exposeAlias k v c0 = c0) ∧
  (∀ k v c0, plugins c0 !! k = None → plugins (exposeAlias k v c0) !! k = Some v) ∧
  ∃ vX cX vY c' log,
    register eX.1 (pluginsWithOverrides (plugins c) eX.2) = Ok vX ∧
    register_plugin eX c = (Ok (), cX, [CallRegister (pid eX.1)]) ∧
    register eY.1 (pluginsWithOverrides (plugins cX) eY.2) = Ok vY ∧
    registerPlugins [iX; iY] c = (Ok (), c', log) ∧
    (∀ k, key eX.1 eX.2 = k → key eY.1 eY.2 = k → plugins c' !! k = Some vY) ∧
    (∀ svc,
       svc ∈ Metadata.provides (metadata eX.1) →
       svc ∈ Metadata.provides (metadata eY.1) →
       plugins c !! svc = None → key eY.1 eY.2 ≠ svc →
       plugins c' !! svc = Some vX).
Proof.
  intros c iX iY eX eY.
  assert (satisfiable (availablePlugins c) [eX; eY]) as Hsat.
  { intros q d Hq Hd. each_member Hq; by apply elem_of_nil in Hd. }
  split_and!; [exact Hsat|apply sample_returns|apply sample_returns
              |apply nobody_listens_yet|..];
    apply (exposure_policy c iX iY Hsat (sample_returns _ _ _ _)
             (sample_returns _ _ _ _) nobody_listens_yet).
Defined.

(** C6. Two successful calls in a row: each appends its batch to the raw
    plugin list, and the [onPluginRegister] calls of each are exactly one per
    entry that was in the list before the call, in registration order, none
    being made for the entries of the batch itself. Counted per plugin: on a
    new Core, a plugin is notified over the two calls as many times as the
    first batch registers it, all by the second call. *)
Theorem notification_scope (first second : list item) (c : Core) :
  satisfiable (availablePlugins c) (normalize <$> first) →
  satisfiable (availablePlugins c ++ offered (normalize <$> first))
    (normalize <$> second) →
  (∀ entry, entry ∈ normalize <$> first ++ second → returns entry.1) →
  (∀ entry, entry ∈ rawPlugins c ++ (normalize <$> first) → listens entry.1) →
  ∃ c1 log1 c2 log2,
    registerPlugins first c = (Ok (), c1, log1) ∧
    registerPlugins second c1 = (Ok (), c2, log2) ∧
    rawPlugins c1 = rawPlugins c ++ (normalize <$> first) ∧
    rawPlugins c2 = rawPlugins c1 ++ (normalize <$> second) ∧
    filter (λ what, is_notification what = true) log1
      = notifications (pluginData (normalize <$> first)) (rawPlugins c) ∧
    filter (λ what, is_notification what = true) log2
      = notifications (pluginData (normalize <$> second))
          (rawPlugins c ++ (normalize <$> first)) ∧
    (∀ p, notified p log1 = occurrences p (rawPlugins c)) ∧
    (∀ p, notified p log2
          = occurrences p (rawPlugins c) + occurrences p (normalize <$> first)) ∧
    (rawPlugins c = [] →
     ∀ p, notified p (log1 ++ log2) = occurrences p (normalize <$> first)).
Proof.
  intros Hsat1 Hsat2 Hret Hlis.
  destruct (registers_total (normalize <$> first) c) as [c1 Hreg1].
  { intros entry Hin. apply (Hret entry). rewrite fmap_app. set_solver. }
  pose (c1' := push_rawPlugins (normalize <$> first) c1).
  destruct (registers_total (normalize <$> second) c1') as [c2 Hreg2].
  { intros entry Hin. apply (Hret entry). rewrite fmap_app. set_solver. }
  assert (rawPlugins c1' = rawPlugins c ++ (normalize <$> first)) as Hraw.
  { simpl. by rewrite (registers_rawPlugins _ _ _ Hreg1). }
  eexists c1', _, (push_rawPlugins (normalize <$> second) c2), _. split_and!.
  - apply (run_registerPlugins_Ok first c c1); [done..| |].
    + intros entry Hin. apply (Hret entry). rewrite fmap_app. set_solver.
    + intros entry Hin. apply Hlis. set_solver.
  - apply (run_registerPlugins_Ok second c1' c2); [|done| |].
    + simpl. by rewrite (registers_availablePlugins _ _ _ Hreg1).
    + intros entry Hin. apply (Hret entry). rewrite fmap_app. set_solver.
    + intros entry Hin. apply Hlis. by rewrite <-Hraw.
  - done.
  - simpl. by rewrite (registers_rawPlugins _ _ _ Hreg2).
  - apply filter_lifecycle_notifications.
  - rewrite Hraw. apply filter_lifecycle_notifications.
  - intros p. apply notified_lifecycle.
  - intros p. rewrite Hraw, notified_lifecycle.
    unfold occurrences. by rewrite filter_app, length_app.
  - intros Hnew p. unfold notified.
    rewrite (filter_notification_app (is_notification_of p)), length_app.
    fold (notified p ((CallRegister <$> pids (normalize <$> first)) ++
            (CallInit <$> pids (normalize <$> first)) ++
            (CallAfterInit <$> pids (normalize <$> first)) ++
            notifications (pluginData (normalize <$> first)) (rawPlugins c))).
    rewrite notified_lifecycle.
    fold (notified p ((CallRegister <$> pids (normalize <$> second)) ++
            (CallInit <$> pids (normalize <$> second)) ++
            (CallAfterInit <$> pids (normalize <$> second)) ++
            notifications (pluginData (normalize <$> second)) (rawPlugins c1'))).
    rewrite notified_lifecycle, Hraw, Hnew. done.
Qed.

Lemma notification_scope_witness :
  let c := constructor in
  let first := [Bare examplePlugin] in
  let second := [Bare hasDependency] in
  satisfiable (availablePlugins c) (normalize <$> first) ∧
  satisfiable (availablePlugins c ++ offered (normalize <$> first))
    (normalize <$> second) ∧
  (∀ entry, entry ∈ normalize <$> first ++ second → returns entry.1) ∧
  (∀ entry, entry ∈ rawPlugins c ++ (normalize <$> first) → listens entry.1) ∧
  ∃ c1 log1 c2 log2,
    registerPlugins first c = (Ok (), c1, log1) ∧
    registerPlugins second c1 = (Ok (), c2, log2) ∧
    rawPlugins c1 = rawPlugins c ++ (normalize <$> first) ∧
    rawPlugins c2 = rawPlugins c1 ++ (normalize <$> second) ∧
    filter (λ what, is_notification what = true) log1
      = notifications (pluginData (normalize <$> first)) (rawPlugins c) ∧
    filter (λ what, is_notification what = true) log2
      = notifications (pluginData (normalize <$> second))
          (rawPlugins c ++ (normalize <$> first)) ∧
    (∀ p, notified p log1 = occurrences p (rawPlugins c)) ∧
    (∀ p, notified p log2
          = occurrences p (rawPlugins c) + occurrences p (normalize <$> first)) ∧
    (rawPlugins c = [] →
     ∀ p, notified p (log1 ++ log2) = occurrences p (normalize <$> first)).
Proof.
  intros c first second.
  assert (satisfiable (availablePlugins c) (normalize <$> first)) as H1.
  { intros q d Hq Hd. each_member Hq. by apply elem_of_nil in Hd. }
  assert (satisfiable (availablePlugins c ++ offered (normalize <$> first))
            (normalize <$> second)) as H2.
  { intros q d Hq Hd. each_member Hq. each_member Hd. left. by left. }
  assert (∀ entry, entry ∈ normalize <$> first ++ second → returns entry.1) as H3.
  { intros entry H. each_member H; apply sample_returns. }
  assert (∀ entry, entry ∈ rawPlugins c ++ (normalize <$> first) → listens entry.1)
    as H4.
  { intros entry H. by each_member H. }
  split_and!; [done..|].
  exact (notification_scope first second c H1 H2 H3 H4).
Defined.

(** C7, on a Core with one plugin registered, for a batch of one plugin: the
    argument of the notification is the metadata object of the new plugin
    itself, with the keys [name], [provides] and [depends], where the
    documentation of [onPluginRegister] and the claim have the object with
    the one key ["windowEvents"] bound to that metadata object. *)
Theorem notification_carries_last_metadata :
  let c1 := (registerPlugins [Bare examplePlugin] constructor).1.2 in
  (registerPlugins [Bare windowEvents] c1).1.1 = Ok () ∧
  (registerPlugins [Bare windowEvents] c1).2
    = [CallRegister 5; CallInit 5; CallAfterInit 5;
       CallOnPluginRegister 1 (Metadata.object (metadata windowEvents))] ∧
  pluginData [normalize (Bare windowEvents)] = Metadata.object (metadata windowEvents) ∧
  keys (pluginData [normalize (Bare windowEvents)]) = ["name"; "provides"; "depends"] ∧
  metadataByKey [normalize (Bare windowEvents)]
    = [("windowEvents", DObject (Metadata.object (metadata windowEvents)))] ∧
  keys (metadataByKey [normalize (Bare windowEvents)]) = ["windowEvents"] ∧
  pluginData [normalize (Bare windowEvents)]
    ≠ metadataByKey [normalize (Bare windowEvents)].
Proof. split_and!; [reflexivity..|done]. Qed.

(** C8. With hooks that do not throw, a call whose dependency check fails
    calls nothing and leaves Core as it is; a call whose check passes makes
    all the [register] calls in batch order, then all the [init] calls, then
    all the [afterInit] calls, then the [onPluginRegister] calls on the
    plugins registered by earlier calls, and only then appends the batch to
    the raw plugin list. For a batch of one plugin without dependencies,
    given without options, the plugin's name is then bound to what its
    [register] returned, and its [init] and [afterInit] were each called
    once, in this order. *)
Theorem lifecycle_phases (batch : list item) (c : Core) :
  (∀ entry, entry ∈ normalize <$> batch → returns entry.1) →
  (∀ entry, entry ∈ rawPlugins c → listens entry.1) →
  let entries := normalize <$> batch in
  (¬ satisfiable (availablePlugins c) entries →
   ∃ message, registerPlugins batch c = (Throw (Error message), c, [])) ∧
  (satisfiable (availablePlugins c) entries →
   ∃ c',
     registerPlugins batch c =
       (Ok (), c',
        (CallRegister <$> pids entries) ++ (CallInit <$> pids entries) ++
        (CallAfterInit <$> pids entries) ++
        notifications (pluginData entries) (rawPlugins c)) ∧
     rawPlugins c' = rawPlugins c ++ entries) ∧
  (∀ A, batch = [Bare A] → Metadata.depends (metadata A) = [] →
   ∃ v c',
     register A (pluginsWithOverrides (plugins c) Options.empty) = Ok v ∧
     registerPlugins batch c =
       (Ok (), c',
        [CallRegister (pid A); CallInit (pid A); CallAfterInit (pid A)] ++
        notifications (Metadata.object (metadata A)) (rawPlugins c)) ∧
     plugins c' !! Metadata.name (metadata A) = Some v).
Proof.
  intros Hret Hlis entries. split_and!.
  - intros Hunsat. eexists. by apply run_registerPlugins_unmet.
  - intros Hsat.
    destruct (registers_total entries c) as [c1 Hreg].
    { intros entry Hin. apply (Hret entry Hin). }
    exists (push_rawPlugins entries c1). split.
    + by apply (run_registerPlugins_Ok batch c c1).
    + simpl. by rewrite (registers_rawPlugins _ _ _ Hreg).
  - intros A -> Hdep.
    destruct (proj1 (Hret (A, Options.empty) ltac:(left))
                (pluginsWithOverrides (plugins c) Options.empty)) as [v Hv].
    exists v, (push_rawPlugins [(A, Options.empty)] (registered (A, Options.empty) v c)).
    split_and!; [done| |].
    + apply (run_registerPlugins_Ok [Bare A] c); [|by repeat econstructor|done..].
      intros q d ->%list_elem_of_singleton Hd. simpl in Hd. rewrite Hdep in Hd.
      by apply elem_of_nil in Hd.
    + apply (registered_lookup_key (A, Options.empty) v c).
Qed.

Lemma lifecycle_phases_witness :
  let c := constructor in
  let batch := [Bare examplePlugin] in
  let entries := normalize <$> batch in
  (∀ entry, entry ∈ normalize <$> batch → returns entry.1) ∧
  (∀ entry, entry ∈ rawPlugins c → listens entry.1) ∧
  (¬ satisfiable (availablePlugins c) entries →
   ∃ message, registerPlugins batch c = (Throw (Error message), c, [])) ∧
  (satisfiable (availablePlugins c) entries →
   ∃ c',
     registerPlugins batch c =
       (Ok (), c',
        (CallRegister <$> pids entries) ++ (CallInit <$> pids entries) ++
        (CallAfterInit <$> pids entries) ++
        notifications (pluginData entries) (rawPlugins c)) ∧
     rawPlugins c' = rawPlugins c ++ entries) ∧
  (∀ A, batch = [Bare A] → Metadata.depends (metadata A) = [] →
   ∃ v c',
     register A (pluginsWithOverrides (plugins c) Options.empty) = Ok v ∧
     registerPlugins batch c =
       (Ok (), c',
        [CallRegister (pid A); CallInit (pid A); CallAfterInit (pid A)] ++
        notifications (Metadata.object (metadata A)) (rawPlugins c)) ∧
     plugins c' !! Metadata.name (metadata A) = Some v).
Proof.
  intros c batch entries.
  assert (∀ entry, entry ∈ normalize <$> batch → returns entry.1) as H1.
  { intros entry H. each_member H. apply sample_returns. }
  split_and!; [exact H1|apply nobody_listens_yet|..];
    apply (lifecycle_phases batch c H1 nobody_listens_yet).
Defined.

(** C9, as the code has it. In a successful call, for every name [d], the
    sequence the dependency graph holds under [d] is the one it held before
    followed by the [metadata.name] (not the exposure key) of each member of
    the batch, in batch order, once for each occurrence of [d] in its
    [depends]; and the graph has an entry for [d] if and only if it had one
    before or [d] is in the [depends] of a member. *)
Theorem dependency_graph_edges (batch : list item) (c : Core) :
  satisfiable (availablePlugins c) (normalize <$> batch) →
  (∀ entry, entry ∈ normalize <$> batch → returns entry.1) →
  (∀ entry, entry ∈ rawPlugins c → listens entry.1) →
  ∃ c' log,
    registerPlugins batch c = (Ok (), c', log) ∧
    ∀ d,
      default [] (dependencyGraph c' !! d)
        = default [] (dependencyGraph c !! d) ++ dependents d (normalize <$> batch) ∧
      (d ∈ dom (dependencyGraph c') ↔
       d ∈ dom (dependencyGraph c) ∨
       ∃ entry, entry ∈ normalize <$> batch ∧
         d ∈ Metadata.depends (metadata entry.1)).
Proof.
  intros Hsat Hret Hlis.
  destruct (registers_total (normalize <$> batch) c) as [c1 Hreg].
  { intros entry Hin. apply (Hret entry Hin). }
  eexists (push_rawPlugins (normalize <$> batch) c1), _. split.
  - by apply (run_registerPlugins_Ok batch c c1).
  - intros d. simpl. by apply registers_graph.
Qed.

Lemma dependency_graph_edges_witness :
  let c := constructor in
  let batch := [Bare examplePlugin; Pair hasDependency custom_name] in
  satisfiable (availablePlugins c) (normalize <$> batch) ∧
  (∀ entry, entry ∈ normalize <$> batch → returns entry.1) ∧
  (∀ entry, entry ∈ rawPlugins c → listens entry.1) ∧
  ∃ c' log,
    registerPlugins batch c = (Ok (), c', log) ∧
    ∀ d,
      default [] (dependencyGraph c' !! d)
        = default [] (dependencyGraph c !! d) ++ dependents d (normalize <$> batch) ∧
      (d ∈ dom (dependencyGraph c') ↔
       d ∈ dom (dependencyGraph c) ∨
       ∃ entry, entry ∈ normalize <$> batch ∧
         d ∈ Metadata.depends (metadata entry.1)).
Proof.
  intros c batch.
  assert (satisfiable (availablePlugins c) (normalize <$> batch)) as H1.
  { intros q d Hq Hd. each_member Hq; each_member Hd.
    right. exists (examplePlugin, Options.empty). split; [left|by left]. }
  assert (∀ entry, entry ∈ normalize <$> batch → returns entry.1) as H2.
  { intros entry H. each_member H; apply sample_returns. }
  split_and!; [done|done|apply nobody_listens_yet|].
  exact (dependency_graph_edges batch c H1 H2 nobody_listens_yet).
Defined.

(** C9 fails as stated: a plugin registered under a custom key is recorded
    in the dependency graph under its [metadata.name]. *)
Lemma dependent_recorded_by_name :
  let batch := [Bare examplePlugin; Pair hasDependency custom_name] in
  (registerPlugins batch constructor).1.1 = Ok () ∧
  key hasDependency custom_name = "custom" ∧
  Metadata.name (metadata hasDependency) = "hasDependency" ∧
  dependencyGraph (registerPlugins batch constructor).1.2 !! "example"
    = Some ["hasDependency"].
Proof. split_and!; [reflexivity..|]. vm_compute. reflexivity. Qed.

(** C10. A plugin registered with [options.name] a non-empty [k] other than
    its [metadata.name], while nothing available or in the batch is named
    [k] or provides [k]: after the call [k] is bound in the exposure table,
    but it is [metadata.name], not [k], that was appended to the available
    names; so a later batch that depends on [k] without offering it is
    rejected with [k] among the unmet dependencies. *)
Theorem custom_name_not_available (batch : list item) (c : Core)
    (P : Plugin) (o : Options.t) (k : string) :
  (P, o) ∈ normalize <$> batch →
  Options.name o = Some k → k ≠ "" → k ≠ Metadata.name (metadata P) →
  k ∉ availablePlugins c →
  (∀ q, q ∈ normalize <$> batch →
     k ≠ Metadata.name (metadata q.1) ∧ (k ∉ Metadata.provides (metadata q.1))) →
  satisfiable (availablePlugins c) (normalize <$> batch) →
  (∀ entry, entry ∈ normalize <$> batch → returns entry.1) →
  (∀ entry, entry ∈ rawPlugins c → listens entry.1) →
  ∃ c' log,
    registerPlugins batch c = (Ok (), c', log) ∧
    is_Some (plugins c' !! k) ∧
    availablePlugins c' = availablePlugins c ++ offered (normalize <$> batch) ∧
    Metadata.name (metadata P) ∈ availablePlugins c' ∧
    (k ∉ availablePlugins c') ∧
    ∀ later : list item,
      (∃ q, q ∈ normalize <$> later ∧ k ∈ Metadata.depends (metadata q.1)) →
      (∀ q, q ∈ normalize <$> later →
         k ≠ Metadata.name (metadata q.1) ∧ (k ∉ Metadata.provides (metadata q.1))) →
      ∃ missing,
        registerPlugins later c' =
          (Throw (Error ("Unmet dependencies: " +:+ join ", " missing)), c', []) ∧
        k ∈ missing ∧ is_Some (plugins c' !! k).
Proof.
  intros Hin Hname Hk HkP Hav Hoff Hsat Hret Hlis.
  destruct (registers_total (normalize <$> batch) c) as [c1 Hreg].
  { intros entry Hentry. apply (Hret entry Hentry). }
  assert (availablePlugins c1 = availablePlugins c ++ offered (normalize <$> batch))
    as Havail by by apply registers_availablePlugins.
  assert (is_Some (plugins c1 !! k)) as Hbound.
  { destruct (registers_bound c _ c1 (P, o) Hreg Hin) as [Hkey _].
    unfold key in Hkey. simpl in Hkey. rewrite Hname in Hkey.
    by rewrite decide_False in Hkey. }
  assert (k ∉ availablePlugins c1) as Hnot.
  { rewrite Havail. intros [?|Hoffd]%elem_of_app; [done|].
    apply elem_of_offered in Hoffd as (q & Hq & Hd).
    destruct (Hoff q Hq). naive_solver. }
  eexists (push_rawPlugins (normalize <$> batch) c1), _. split_and!.
  - by apply (run_registerPlugins_Ok batch c c1).
  - done.
  - done.
  - simpl. rewrite Havail. apply elem_of_app. right.
    apply elem_of_offered. exists (P, o). split; [done|by left].
  - done.
  - intros later Hdep Hlater.
    set (c' := push_rawPlugins (normalize <$> batch) c1).
    assert (unmet (availablePlugins c') (normalize <$> later) k) as Hunmet
      by by split_and!.
    apply elem_of_difference in Hunmet.
    exists (sort (difference c' (normalize <$> later))).
    split_and!; [|by apply elem_of_sort|done].
    apply run_registerPlugins_unmet. intros Hnil%difference_nil.
    rewrite Hnil in Hunmet. by apply elem_of_nil in Hunmet.
Qed.

Lemma custom_name_not_available_witness :
  let c := constructor in
  let batch := [Pair examplePlugin custom_name] in
  let P := examplePlugin in
  let o := custom_name in
  let k := "custom" in
  (P, o) ∈ normalize <$> batch ∧
  Options.name o = Some k ∧ k ≠ "" ∧ k ≠ Metadata.name (metadata P) ∧
  (k ∉ availablePlugins c) ∧
  (∀ q, q ∈ normalize <$> batch →
     k ≠ Metadata.name (metadata q.1) ∧ (k ∉ Metadata.provides (metadata q.1))) ∧
  satisfiable (availablePlugins c) (normalize <$> batch) ∧
  (∀ entry, entry ∈ normalize <$> batch → returns entry.1) ∧
  (∀ entry, entry ∈ rawPlugins c → listens entry.1) ∧
  ∃ c' log,
    registerPlugins batch c = (Ok (), c', log) ∧
    is_Some (plugins c' !! k) ∧
    availablePlugins c' = availablePlugins c ++ offered (normalize <$> batch) ∧
    Metadata.name (metadata P) ∈ availablePlugins c' ∧
    (k ∉ availablePlugins c') ∧
    ∀ later : list item,
      (∃ q, q ∈ normalize <$> later ∧ k ∈ Metadata.depends (metadata q.1)) →
      (∀ q, q ∈ normalize <$> later →
         k ≠ Metadata.name (metadata q.1) ∧ (k ∉ Metadata.provides (metadata q.1))) →
      ∃ missing,
        registerPlugins later c' =
          (Throw (Error ("Unmet dependencies: " +:+ join ", " missing)), c', []) ∧
        k ∈ missing ∧ is_Some (plugins c' !! k).
Proof.
  intros c batch P o k.
  assert ((P, o) ∈ normalize <$> batch) as H1 by left.
  assert (k ∉ availablePlugins c) as H2 by apply not_elem_of_nil.
  assert (∀ q, q ∈ normalize <$> batch →
            k ≠ Metadata.name (metadata q.1) ∧
            (k ∉ Metadata.provides (metadata q.1))) as H3.
  { intros q Hq. each_member Hq. split; [done|apply not_elem_of_nil]. }
  assert (satisfiable (availablePlugins c) (normalize <$> batch)) as H4.
  { intros q d Hq Hd. each_member Hq. by apply elem_of_nil in Hd. }
  assert (∀ entry, entry ∈ normalize <$> batch → returns entry.1) as H5.
  { intros entry H. each_member H. apply sample_returns. }
  split_and!; [done..|apply nobody_listens_yet|].
  exact (custom_name_not_available batch c P o k H1 eq_refl ltac:(done) ltac:(done)
           H2 H3 H4 H5 nobody_listens_yet).
Defined.

(** * Further properties *)

(** ** Whatever the hooks do *)

Lemma run_forEach_state_same {A} (f : A → M ()) l c :
  (∀ x c, (f x c).1.2 = c) → (forEach f l c).1.2 = c.
Proof.
  intros Hf. revert c. induction l as [|x l IH]; intros c; [done|].
  rewrite run_forEach_cons, run_bind.
  pose proof (Hf x c) as Hx. destruct (f x c) as [[[[]|e] c1] log1]; simpl in Hx; subst.
  - pose proof (IH c) as Hl. destruct (forEach f l c) as [[r c2] log2]. done.
  - done.
Qed.

Lemma run_init_plugin_state entry c : (init_plugin entry c).1.2 = c.
Proof. done. Qed.

Lemma run_afterInit_plugin_state entry c : (afterInit_plugin entry c).1.2 = c.
Proof. done. Qed.

Lemma run_notify_plugin_state data entry c : (notify_plugin data entry c).1.2 = c.
Proof. done. Qed.

Lemma run_register_loop_upto entries c :
  registers_upto c entries (forEach register_plugin entries c).1.2.
Proof.
  revert c. induction entries as [|entry entries IH]; intros c; [constructor|].
  rewrite run_forEach_cons, run_bind, run_register_plugin.
  destruct (register entry.1 _) as [v|e] eqn:Hv; [|constructor].
  pose proof (IH (registered entry v c)) as Hrest.
  destruct (forEach register_plugin entries (registered entry v c)) as [[r c'] log].
  by econstructor.
Qed.

Lemma run_register_loop_Ok entries c c' log :
  forEach register_plugin entries c = (Ok (), c', log) → registers c entries c'.
Proof.
  revert c log. induction entries as [|entry entries IH]; intros c log.
  { intros [= <- _]. constructor. }
  rewrite run_forEach_cons, run_bind, run_register_plugin.
  destruct (register entry.1 _) as [v|e] eqn:Hv; [|done].
  destruct (forEach register_plugin entries (registered entry v c))
    as [[r c1] log1] eqn:Hrest.
  intros [= -> <- _]. econstructor; [done|]. by eapply IH.
Qed.

(** The Core a call leaves behind: the one the registration loop reached,
    with the batch appended to the raw plugin list exactly when the call
    returns. *)
Lemma run_registerPlugins_state batch c :
  let entries := normalize <$> batch in
  ∃ c1, registers_upto c entries c1 ∧
    ((∃ log, registerPlugins batch c = (Ok (), push_rawPlugins entries c1, log) ∧
             registers c entries c1) ∨
     (∃ e log, registerPlugins batch c = (Throw e, c1, log))).
Proof.
  intros entries.
  destruct (decide (difference c entries = [])) as [Hsat%difference_nil|Hunsat].
  2: { exists c. split; [constructor|]. right. eexists _, _.
       apply run_registerPlugins_unmet. by rewrite <-difference_nil. }
  unfold registerPlugins. fold entries.
  rewrite (run_bind_Ok _ _ _ _ _ _ (run_check_dependencies_Ok _ _ Hsat)).
  pose proof (run_register_loop_upto entries c) as Hupto.
  destruct (forEach register_plugin entries c) as [[[[]|e] c1] log1] eqn:Hreg;
    simpl in Hupto; exists c1; (split; [done|]).
  2: { right. rewrite (run_bind_Throw _ _ _ _ _ _ Hreg). simpl. eauto. }
  rewrite (run_bind_Ok _ _ _ _ _ _ Hreg).
  pose proof (run_forEach_state_same init_plugin entries c1 run_init_plugin_state) as H2.
  destruct (forEach init_plugin entries c1) as [[[[]|e] c2] log2] eqn:Hinit;
    simpl in H2; subst c2.
  2: { right. rewrite (run_bind_Throw _ _ _ _ _ _ Hinit). simpl. eauto. }
  rewrite (run_bind_Ok _ _ _ _ _ _ Hinit).
  pose proof (run_forEach_state_same afterInit_plugin entries c1
                run_afterInit_plugin_state) as H3.
  destruct (forEach afterInit_plugin entries c1) as [[[[]|e] c3] log3] eqn:Hafter;
    simpl in H3; subst c3.
  2: { right. rewrite (run_bind_Throw _ _ _ _ _ _ Hafter). simpl. eauto. }
  rewrite (run_bind_Ok _ _ _ _ _ _ Hafter).
  rewrite (run_bind_Ok _ _ _ c1 c1 []) by done.
  pose proof (run_forEach_state_same (notify_plugin (pluginData entries))
                (rawPlugins c1) c1 (run_notify_plugin_state _)) as H4.
  destruct (forEach (notify_plugin (pluginData entries)) (rawPlugins c1) c1)
    as [[[[]|e] c4] log4] eqn:Hnotify; simpl in H4; subst c4.
  2: { right. rewrite (run_bind_Throw _ _ _ _ _ _ Hnotify). simpl. eauto. }
  rewrite (run_bind_Ok _ _ _ _ _ _ Hnotify).
  left. simpl. eexists. split; [done|]. by eapply run_register_loop_Ok.
Qed.

Lemma registers_registers_upto c entries c' :
  registers c entries c' → registers_upto c entries c'.
Proof. induction 1; by econstructor. Qed.

(** ** What the registration loop keeps, wherever it stops *)

Lemma registers_upto_rawPlugins c entries c' :
  registers_upto c entries c' → rawPlugins c' = rawPlugins c.
Proof.
  induction 1 as [|c entry v entries c' _ _ IH]; [done|].
  by rewrite IH, rawPlugins_registered.
Qed.

Lemma registers_upto_availablePlugins c entries c' :
  registers_upto c entries c' →
  ∃ done, done `prefix_of` entries ∧
    availablePlugins c' = availablePlugins c ++ offered done.
Proof.
  induction 1 as [c entries|c entry v entries c' _ _ (done & Hpre & IH)].
  - exists []. split; [apply prefix_nil|]. by rewrite app_nil_r.
  - exists (entry :: done). split; [by apply prefix_cons|].
    rewrite IH, availablePlugins_registered. unfold offered. simpl.
    by rewrite <-!app_assoc.
Qed.

Lemma registers_upto_lookup_mono c entries c' k :
  registers_upto c entries c' → is_Some (plugins c !! k) → is_Some (plugins c' !! k).
Proof.
  induction 1 as [|c entry v entries c' _ _ IH]; [done|].
  intros Hk. by apply IH, registered_lookup_mono.
Qed.

Lemma registers_upto_lookup_stable c entries c' k w :
  registers_upto c entries c' →
  (∀ entry, entry ∈ entries → key entry.1 entry.2 ≠ k) →
  plugins c !! k = Some w → plugins c' !! k = Some w.
Proof.
  induction 1 as [|c entry v entries c' _ _ IH]; [done|].
  intros Hkeys Hk. apply IH.
  - intros entry' Hin. apply Hkeys. by right.
  - apply registered_lookup_bound; [done|]. intros Heq. by eapply Hkeys; [left|].
Qed.

Lemma registers_upto_graph c entries c' d :
  registers_upto c entries c' →
  default [] (dependencyGraph c !! d) `prefix_of` default [] (dependencyGraph c' !! d) ∧
  (d ∈ dom (dependencyGraph c) → d ∈ dom (dependencyGraph c')).
Proof.
  induction 1 as [|c entry v entries c' _ _ [IH1 IH2]]; [done|].
  destruct (lookup_registered_graph entry v c d) as [H1 H2]. simpl in H1, H2.
  split.
  - etrans; [|exact IH1]. rewrite H1. by apply prefix_app_r.
  - intros Hd. apply IH2, H2. by left.
Qed.

(** X1. Whatever the hooks do, the raw plugin list is extended by the whole
    batch when the call returns and is left as it was when the call throws:
    no batch is ever recorded in part. *)
Theorem commit_only_on_return (batch : list item) (c : Core) :
  match (registerPlugins batch c).1.1 with
  | Ok _ =>
      rawPlugins (registerPlugins batch c).1.2 = rawPlugins c ++ (normalize <$> batch)
  | Throw _ => rawPlugins (registerPlugins batch c).1.2 = rawPlugins c
  end.
Proof.
  destruct (run_registerPlugins_state batch c)
    as (c1 & Hupto & [(log & -> & _)|(e & log & ->)]); simpl.
  - by rewrite (registers_upto_rawPlugins _ _ _ Hupto).
  - by apply registers_upto_rawPlugins in Hupto.
Qed.

(** X2. Whatever the hooks do and however the call ends, a key that was
    bound in the exposure table is still bound afterwards. *)
Theorem exposure_never_unbinds (batch : list item) (c : Core) (k : string) :
  is_Some (plugins c !! k) →
  is_Some (plugins (registerPlugins batch c).1.2 !! k).
Proof.
  intros Hk.
  destruct (run_registerPlugins_state batch c)
    as (c1 & Hupto & [(log & -> & _)|(e & log & ->)]); simpl;
    by eapply registers_upto_lookup_mono.
Qed.

Lemma exposure_never_unbinds_witness :
  let c := (registerPlugins [Bare windowEvents] constructor).1.2 in
  let batch := [Bare (sample 8 "windowEvents" ["events"] [])] in
  is_Some (plugins c !! "events") ∧
  is_Some (plugins (registerPlugins batch c).1.2 !! "events").
Proof.
  intros c batch.
  assert (is_Some (plugins c !! "events")) as H by (by vm_compute; eexists).
  split; [exact H|]. exact (exposure_never_unbinds batch c "events" H).
Defined.

(** X3. Whatever the hooks do and however the call ends, the available names
    afterwards are the ones before followed by the names and [provides] of
    the members the registration loop got through, in batch order: all of
    the batch when the call returns. *)
Theorem available_names_append_only (batch : list item) (c : Core) :
  ∃ done,
    done `prefix_of` (normalize <$> batch) ∧
    availablePlugins (registerPlugins batch c).1.2
      = availablePlugins c ++ offered done ∧
    ((registerPlugins batch c).1.1 = Ok () → done = normalize <$> batch).
Proof.
  destruct (run_registerPlugins_state batch c)
    as (c1 & Hupto & [(log & -> & Hreg)|(e & log & ->)]); simpl.
  - exists (normalize <$> batch). split_and!; [done| |done].
    by apply registers_availablePlugins.
  - destruct (registers_upto_availablePlugins _ _ _ Hupto) as (done & Hpre & Hav).
    exists done. by split_and!.
Qed.

(** X4. Whatever the hooks do and however the call ends, the dependency
    graph only grows: the sequence under every name is extended at its end,
    and no entry disappears. *)
Theorem dependency_graph_append_only (batch : list item) (c : Core) (d : string) :
  default [] (dependencyGraph c !! d)
    `prefix_of` default [] (dependencyGraph (registerPlugins batch c).1.2 !! d) ∧
  (d ∈ dom (dependencyGraph c) →
   d ∈ dom (dependencyGraph (registerPlugins batch c).1.2)).
Proof.
  destruct (run_registerPlugins_state batch c)
    as (c1 & Hupto & [(log & -> & _)|(e & log & ->)]); simpl;
    by eapply registers_upto_graph.
Qed.

Lemma satisfiable_more available available' entries :
  (∀ x, x ∈ available → x ∈ available') →
  satisfiable available entries → satisfiable available' entries.
Proof. intros Hsub Hsat q d Hq Hd. destruct (Hsat q d Hq Hd); auto. Qed.

(** X5. A batch that passes the dependency check on a Core passes it on any
    Core that later calls leave behind, whatever those calls do and however
    they end. *)
Theorem dependencies_stay_met (batch other : list item) (c : Core) :
  satisfiable (availablePlugins c) (normalize <$> batch) →
  satisfiable (availablePlugins (registerPlugins other c).1.2) (normalize <$> batch) ∧
  check_dependencies (normalize <$> batch) (registerPlugins other c).1.2
    = (Ok (), (registerPlugins other c).1.2, []).
Proof.
  intros Hsat.
  assert (satisfiable (availablePlugins (registerPlugins other c).1.2)
            (normalize <$> batch)) as Hsat'.
  { eapply satisfiable_more; [|done]. intros x Hx.
    destruct (run_registerPlugins_state other c)
      as (c1 & Hupto & [(log & -> & _)|(e & log & ->)]); simpl;
      destruct (registers_upto_availablePlugins _ _ _ Hupto) as (done & _ & ->);
      apply elem_of_app; by left. }
  split; [done|]. by apply run_check_dependencies_Ok.
Qed.

(** ** When a hook throws *)

Lemma run_forEach_app_Ok {A} (f : A → M ()) l1 l2 c c1 log1 :
  forEach f l1 c = (Ok (), c1, log1) →
  forEach f (l1 ++ l2) c
    = ((forEach f l2 c1).1.1, (forEach f l2 c1).1.2, log1 ++ (forEach f l2 c1).2).
Proof.
  revert c log1. induction l1 as [|x l1 IH]; intros c log1.
  { intros [= <- <-]. simpl. by destruct (forEach f l2 c) as [[??]?]. }
  rewrite <-app_comm_cons, !run_forEach_cons, !run_bind.
  destruct (f x c) as [[[[]|e] c'] log] eqn:Hx; [|done].
  destruct (forEach f l1 c') as [[r1 c1'] log1'] eqn:Hl1.
  intros [= -> -> <-]. rewrite (IH _ _ Hl1). simpl. by rewrite app_assoc.
Qed.

Lemma run_forEach_calls_at (f : Plugin * Options.t → M ())
    (what : Plugin * Options.t → call) l c :
  (∀ entry, entry ∈ l → f entry c = (Ok (), c, [what entry])) →
  forEach f l c = (Ok (), c, what <$> l).
Proof.
  induction l as [|x l IH]; intros Hf; [done|].
  rewrite run_forEach_cons, (run_bind_Ok _ _ _ () c [what x]) by (apply Hf; left).
  rewrite IH by (intros; apply Hf; by right). done.
Qed.

Lemma run_forEach_calls_Throw (f : Plugin * Options.t → M ())
    (what : Plugin * Options.t → call) before failing after c e :
  (∀ entry, entry ∈ before → f entry c = (Ok (), c, [what entry])) →
  f failing c = (Throw e, c, [what failing]) →
  forEach f (before ++ failing :: after) c
    = (Throw e, c, what <$> (before ++ [failing])).
Proof.
  intros Hbefore Hfailing.
  rewrite (run_forEach_app_Ok f before _ c c (what <$> before))
    by by apply run_forEach_calls_at.
  rewrite run_forEach_cons, (run_bind_Throw _ _ _ _ _ _ Hfailing). simpl.
  by rewrite fmap_app.
Qed.

(** X6. When the [register] of a member throws, the call throws the same
    and stops there: the members before it stay exposed, available and in
    the dependency graph as the loop left them, their [init] is never
    called, nothing of the failing member or of the members after it is
    recorded, and the raw plugin list is as before. *)
Theorem register_throw_keeps_partial
    (before after : list item) (failing : item) (c c1 : Core) (e : exn) :
  satisfiable (availablePlugins c) (normalize <$> before ++ failing :: after) →
  registers c (normalize <$> before) c1 →
  register (normalize failing).1
    (pluginsWithOverrides (plugins c1) (normalize failing).2) = Throw e →
  registerPlugins (before ++ failing :: after) c
    = (Throw e, c1, CallRegister <$> pids (normalize <$> before ++ [failing])) ∧
  rawPlugins c1 = rawPlugins c ∧
  availablePlugins c1 = availablePlugins c ++ offered (normalize <$> before) ∧
  (∀ entry, entry ∈ normalize <$> before →
     is_Some (plugins c1 !! key entry.1 entry.2)).
Proof.
  intros Hsat Hreg Hthrow. split_and!.
  - unfold registerPlugins.
    rewrite (run_bind_Ok _ _ _ _ _ _ (run_check_dependencies_Ok _ _ Hsat)).
    rewrite (run_bind_Throw _ _ _ e c1
               (CallRegister <$> pids (normalize <$> before ++ [failing]))); [done|].
    rewrite fmap_app, fmap_cons.
    rewrite (run_forEach_app_Ok _ _ _ _ _ _ (run_registers _ _ _ Hreg)).
    rewrite run_forEach_cons.
    rewrite (run_bind_Throw _ _ _ e c1 [CallRegister (pid (normalize failing).1)]).
    + simpl. unfold pids. by rewrite !fmap_app.
    + by rewrite run_register_plugin, Hthrow.
  - by apply registers_rawPlugins in Hreg.
  - by apply registers_availablePlugins.
  - intros entry Hin. by destruct (registers_bound c _ c1 entry Hreg Hin).
Qed.

(** X7. When the [init] of a member throws, every member has been
    registered, the [init] of the members before it has been called, and the
    call throws the same: no [afterInit] and no [onPluginRegister] is
    called, the batch stays exposed and available, and it is not appended
    to the raw plugin list. *)
Theorem init_throw_keeps_registration
    (batch : list item) (before after : list (Plugin * Options.t))
    (failing : Plugin * Options.t) (c c1 : Core) (e : exn) :
  normalize <$> batch = before ++ failing :: after →
  satisfiable (availablePlugins c) (normalize <$> batch) →
  registers c (normalize <$> batch) c1 →
  (∀ entry, entry ∈ before →
     init entry.1 (pluginsWithOverrides (plugins c1) entry.2) = Ok ()) →
  init failing.1 (pluginsWithOverrides (plugins c1) failing.2) = Throw e →
  registerPlugins batch c
    = (Throw e, c1,
       (CallRegister <$> pids (normalize <$> batch)) ++
       (CallInit <$> pids (before ++ [failing]))) ∧
  rawPlugins c1 = rawPlugins c ∧
  availablePlugins c1 = availablePlugins c ++ offered (normalize <$> batch) ∧
  (∀ entry, entry ∈ normalize <$> batch →
     is_Some (plugins c1 !! key entry.1 entry.2)).
Proof.
  intros Hsplit Hsat Hreg Hbefore Hthrow. split_and!.
  - unfold registerPlugins.
    rewrite (run_bind_Ok _ _ _ _ _ _ (run_check_dependencies_Ok _ _ Hsat)).
    rewrite (run_bind_Ok _ _ _ _ _ _ (run_registers _ _ _ Hreg)).
    rewrite (run_bind_Throw _ _ _ e c1 (CallInit <$> pids (before ++ [failing])));
      [done|].
    rewrite Hsplit. unfold pids. rewrite <-list_fmap_compose.
    apply run_forEach_calls_Throw.
    + intros entry Hin. unfold init_plugin. rewrite run_bind. unfold get, invoke.
      by rewrite (Hbefore entry Hin).
    + unfold init_plugin. rewrite run_bind. unfold get, invoke. by rewrite Hthrow.
  - by apply registers_rawPlugins in Hreg.
  - by apply registers_availablePlugins.
  - intros entry Hin. by destruct (registers_bound c _ c1 entry Hreg Hin).
Qed.

(** X8. When the [onPluginRegister] of a plugin registered earlier throws,
    the new batch has been registered and initialised in full, the plugins
    registered before the throwing one have been notified, and the call
    throws the same: the plugins registered after it are not notified, and
    the new batch, although exposed and available, is not appended to the
    raw plugin list. *)
Theorem listener_throw_loses_commit
    (batch : list item) (before after : list (Plugin * Options.t))
    (failing : Plugin * Options.t) (c c1 : Core) (e : exn) :
  let entries := normalize <$> batch in
  let data := pluginData entries in
  rawPlugins c = before ++ failing :: after →
  satisfiable (availablePlugins c) entries →
  registers c entries c1 →
  (∀ entry, entry ∈ entries → returns entry.1) →
  (∀ entry, entry ∈ before →
     onPluginRegister entry.1 (pluginsWithOverrides (plugins c1) entry.2) data
       = Ok ()) →
  onPluginRegister failing.1 (pluginsWithOverrides (plugins c1) failing.2) data
    = Throw e →
  registerPlugins batch c
    = (Throw e, c1,
       (CallRegister <$> pids entries) ++ (CallInit <$> pids entries) ++
       (CallAfterInit <$> pids entries) ++
       notifications data (before ++ [failing])) ∧
  rawPlugins c1 = rawPlugins c ∧
  availablePlugins c1 = availablePlugins c ++ offered entries ∧
  (∀ entry, entry ∈ entries → is_Some (plugins c1 !! key entry.1 entry.2)).
Proof.
  intros entries data Hsplit Hsat Hreg Hret Hbefore Hthrow. subst data.
  assert (rawPlugins c1 = rawPlugins c) as Hraw by by apply registers_rawPlugins in Hreg.
  split_and!.
  - unfold registerPlugins. fold entries.
    rewrite (run_bind_Ok _ _ _ _ _ _ (run_check_dependencies_Ok _ _ Hsat)).
    rewrite (run_bind_Ok _ _ _ _ _ _ (run_registers _ _ _ Hreg)).
    rewrite (run_bind_Ok _ _ _ _ _ _ (run_hook_loop_init _ c1 Hret)).
    rewrite (run_bind_Ok _ _ _ _ _ _ (run_hook_loop_afterInit _ c1 Hret)).
    rewrite (run_bind_Ok _ _ _ c1 c1 []) by done.
    rewrite (run_bind_Throw _ _ _ e c1
               (notifications (pluginData entries) (before ++ [failing]))); [done|].
    rewrite Hraw, Hsplit. apply run_forEach_calls_Throw.
    + intros entry Hin. unfold notify_plugin. rewrite run_bind. unfold get, invoke.
      by rewrite (Hbefore entry Hin).
    + unfold notify_plugin. rewrite run_bind. unfold get, invoke. by rewrite Hthrow.
  - done.
  - by apply registers_availablePlugins.
  - intros entry Hin. by destruct (registers_bound c _ c1 entry Hreg Hin).
Qed.

(** ** Edge cases of a call *)

Lemma push_rawPlugins_nil c : push_rawPlugins [] c = c.
Proof. destruct c. unfold push_rawPlugins. simpl. by rewrite app_nil_r. Qed.

(** X9. A call with an empty batch passes the dependency check and changes
    nothing in Core, but still calls [onPluginRegister], with an empty
    object, on every plugin registered so far. *)
Theorem empty_batch_still_notifies (c : Core) :
  (∀ entry, entry ∈ rawPlugins c → listens entry.1) →
  registerPlugins [] c = (Ok (), c, notifications [] (rawPlugins c)).
Proof.
  intros Hlis.
  rewrite (run_registerPlugins_Ok [] c c); [|by intros q d ?%elem_of_nil
    |constructor|by intros entry ?%elem_of_nil|done].
  simpl. by rewrite push_rawPlugins_nil.
Qed.

Lemma unmet_Permutation available entries entries' d :
  entries ≡ₚ entries' → unmet available entries d → unmet available entries' d.
Proof.
  intros Hp ((q & Hq & Hd) & Hav & Hoff). split_and!; [|done|].
  - exists q. by rewrite <-Hp.
  - intros q' Hq'. apply Hoff. by rewrite Hp.
Qed.

Lemma difference_Permutation c entries entries' :
  entries ≡ₚ entries' → difference c entries ≡ₚ difference c entries'.
Proof.
  intros Hp. apply NoDup_Permutation; [apply NoDup_difference..|].
  intros d. rewrite !elem_of_difference.
  split; by apply unmet_Permutation.
Qed.

Lemma sort_Permutation l l' : l ≡ₚ l' → sort l = sort l'.
Proof.
  intros Hp. apply (StronglySorted_unique String.le).
  - apply StronglySorted_merge_sort; apply _.
  - apply StronglySorted_merge_sort; apply _.
  - unfold sort. by rewrite !merge_sort_Permutation.
Qed.

(** X10. The dependency check does not depend on the order of the batch:
    two batches with the same members in any order pass it or fail it
    together, and when they fail it they make the call throw the same
    error, with the same message. *)
Theorem dependency_check_ignores_order (batch batch' : list item) (c : Core) :
  batch ≡ₚ batch' →
  check_dependencies (normalize <$> batch) c
    = check_dependencies (normalize <$> batch') c ∧
  (¬ satisfiable (availablePlugins c) (normalize <$> batch) →
   registerPlugins batch c = registerPlugins batch' c).
Proof.
  intros Hp.
  assert (difference c (normalize <$> batch) ≡ₚ difference c (normalize <$> batch'))
    as Hd by by apply difference_Permutation, fmap_Permutation.
  assert (check_dependencies (normalize <$> batch) c
            = check_dependencies (normalize <$> batch') c) as Hcheck.
  { unfold check_dependencies. rewrite !run_bind. unfold get.
    rewrite (Permutation_length Hd). case_decide; [|done].
    unfold throw, unmet_message. by rewrite (sort_Permutation _ _ Hd). }
  split; [done|]. intros Hunsat.
  rewrite !run_registerPlugins_unmet.
  - unfold unmet_message. by rewrite (sort_Permutation _ _ Hd).
  - rewrite <-difference_nil. intros Hnil. rewrite Hnil in Hd.
    apply Permutation_nil_r in Hd. by apply Hunsat, difference_nil.
  - done.
Qed.

(** X11. Whatever the hooks do and however the call ends, a bound key that
    is not the exposure key of a member of the batch keeps its value: being
    listed in [provides] never rebinds a key. *)
Theorem binding_changes_only_by_primary_key
    (batch : list item) (c : Core) (k : string) (w : value) :
  plugins c !! k = Some w →
  (∀ entry, entry ∈ normalize <$> batch → key entry.1 entry.2 ≠ k) →
  plugins (registerPlugins batch c).1.2 !! k = Some w.
Proof.
  intros Hk Hkeys.
  destruct (run_registerPlugins_state batch c)
    as (c1 & Hupto & [(log & -> & _)|(e & log & ->)]); simpl;
    by eapply registers_upto_lookup_stable.
Qed.

(** ** Invariants of Core *)

Lemma registered_resolvable entry v c :
  plainly_named entry → resolvable c → resolvable (registered entry v c).
Proof.
  intros Hplain Hc x. rewrite availablePlugins_registered.
  intros [Hx|[->|Hx]%elem_of_cons]%elem_of_app.
  - by apply registered_lookup_mono, Hc.
  - rewrite <-Hplain, registered_lookup_key. eauto.
  - by apply registered_lookup_provided.
Qed.

Lemma registers_upto_resolvable c entries c' :
  registers_upto c entries c' →
  (∀ entry, entry ∈ entries → plainly_named entry) →
  resolvable c → resolvable c'.
Proof.
  induction 1 as [|c entry v entries c' _ _ IH]; [done|].
  intros Hplain Hc. apply IH.
  - intros entry' Hin. apply Hplain. by right.
  - apply registered_resolvable; [|done]. apply Hplain. by left.
Qed.

(** X12. As long as no plugin is registered under a custom name, every
    available name is bound in the exposure table, whatever the hooks do and
    however the calls end; so after a call that returns, every dependency of
    every member of the batch is bound. *)
Theorem plain_names_keep_dependencies_bound (batch : list item) (c : Core) :
  resolvable c →
  (∀ entry, entry ∈ normalize <$> batch → plainly_named entry) →
  resolvable (registerPlugins batch c).1.2 ∧
  ((registerPlugins batch c).1.1 = Ok () →
   ∀ entry d, entry ∈ normalize <$> batch →
     d ∈ Metadata.depends (metadata entry.1) →
     is_Some (plugins (registerPlugins batch c).1.2 !! d)).
Proof.
  intros Hc Hplain.
  assert (resolvable (registerPlugins batch c).1.2) as Hc'.
  { destruct (run_registerPlugins_state batch c)
      as (c1 & Hupto & [(log & -> & _)|(e & log & ->)]); simpl;
      [change (resolvable c1)|];
      by apply (registers_upto_resolvable c (normalize <$> batch)). }
  split; [done|]. intros Hok entry d Hin Hd. apply Hc'.
  destruct (decide (difference c (normalize <$> batch) = []))
    as [Hsat%difference_nil|Hunsat].
  2: { rewrite run_registerPlugins_unmet in Hok; [done|]. by rewrite <-difference_nil. }
  destruct (run_registerPlugins_state batch c)
    as (c1 & Hupto & [(log & Hrun & Hreg)|(e & log & Hrun)]);
    rewrite Hrun in Hok |- *; [|done]. simpl.
  rewrite (registers_availablePlugins _ _ _ Hreg). apply elem_of_app.
  destruct (Hsat entry d Hin Hd) as [?|Hoff]; [by left|right].
  by apply elem_of_offered.
Qed.

Lemma elem_of_dependents d entries n :
  n ∈ dependents d entries →
  ∃ entry, entry ∈ entries ∧ n = Metadata.name (metadata entry.1).
Proof.
  unfold dependents. rewrite list_elem_of_bind.
  intros (entry & Hn & Hin). exists entry. split; [done|].
  apply list_elem_of_fmap in Hn as (? & -> & _). done.
Qed.

(** X13. A call that returns keeps the dependency graph within the
    available names: if before the call every name the graph has an entry
    for, and every dependent it lists, is an available name, then so it is
    afterwards. *)
Theorem dependency_graph_stays_closed (batch : list item) (c : Core) :
  graph_closed c →
  satisfiable (availablePlugins c) (normalize <$> batch) →
  (∀ entry, entry ∈ normalize <$> batch → returns entry.1) →
  (∀ entry, entry ∈ rawPlugins c → listens entry.1) →
  ∃ c' log, registerPlugins batch c = (Ok (), c', log) ∧ graph_closed c'.
Proof.
  intros Hclosed Hsat Hret Hlis.
  destruct (registers_total (normalize <$> batch) c) as [c1 Hreg].
  { intros entry Hin. apply (Hret entry Hin). }
  eexists (push_rawPlugins (normalize <$> batch) c1), _. split.
  { by apply (run_registerPlugins_Ok batch c c1). }
  intros d l Hl. simpl in *.
  rewrite (registers_availablePlugins _ _ _ Hreg).
  destruct (registers_graph c _ c1 d Hreg) as [Hseq Hdom].
  rewrite Hl in Hseq. simpl in Hseq. split.
  - assert (d ∈ dom (dependencyGraph c1)) as Hd by (apply elem_of_dom; eauto).
    apply elem_of_app. apply Hdom in Hd as [Hd|(entry & Hin & Hd)].
    + left. apply elem_of_dom in Hd as [l0 Hl0]. by destruct (Hclosed d l0 Hl0).
    + destruct (Hsat entry d Hin Hd) as [?|Hoff]; [by left|right].
      by apply elem_of_offered.
  - intros n Hn. rewrite Hseq in Hn. apply elem_of_app.
    apply elem_of_app in Hn as [Hn|Hn].
    + left. destruct (dependencyGraph c !! d) as [l0|] eqn:Hl0;
        [|by apply elem_of_nil in Hn].
      destruct (Hclosed d l0 Hl0) as [_ Hdeps]. by apply Hdeps.
    + right. apply elem_of_dependents in Hn as (entry & Hin & ->).
      apply elem_of_offered. exists entry. split; [done|by left].
Qed.

Lemma alias_all_lookup_is_Some v l t k :
  is_Some (alias_all v l t !! k) ↔ is_Some (t !! k) ∨ k ∈ l.
Proof.
  split.
  - intros Hk. destruct (decide (k ∈ l)) as [|Hnotin]; [by right|left].
    by rewrite alias_all_lookup_notin in Hk.
  - intros [[w Hw]|Hin].
    + exists w. by apply alias_all_lookup_Some.
    + destruct (alias_all_lookup_elem v l t k Hin) as [->|[-> ?]]; eauto.
Qed.

Lemma registered_lookup_is_Some entry v c k :
  is_Some (plugins (registered entry v c) !! k) ↔
  is_Some (plugins c !! k) ∨ k ∈ exposed_by [entry].
Proof.
  rewrite plugins_registered, alias_all_lookup_is_Some. unfold exposed_by. simpl.
  rewrite app_nil_r, elem_of_cons.
  destruct (decide (k = key entry.1 entry.2)) as [->|Hne].
  - rewrite lookup_insert_eq. naive_solver.
  - rewrite lookup_insert_ne by done. naive_solver.
Qed.

Lemma exposed_by_cons entry entries :
  exposed_by (entry :: entries) = exposed_by [entry] ++ exposed_by entries.
Proof. unfold exposed_by. simpl. by rewrite app_nil_r. Qed.

Lemma registers_lookup_is_Some c entries c' k :
  registers c entries c' →
  is_Some (plugins c' !! k) ↔ is_Some (plugins c !! k) ∨ k ∈ exposed_by entries.
Proof.
  induction 1 as [c|c entry v entries c' _ _ IH].
  { unfold exposed_by. simpl. rewrite elem_of_nil. naive_solver. }
  rewrite IH, registered_lookup_is_Some, (exposed_by_cons entry entries), elem_of_app.
  tauto.
Qed.

(** X14. A call that returns binds exactly the exposure keys of the members
    of the batch and the names in their [provides]: a key is bound
    afterwards if and only if it was bound before or is one of these. In
    particular the [metadata.name] of a member registered under a custom
    name gets bound only if it was already or another member supplies it. *)
Theorem bound_keys_after_a_call (batch : list item) (c : Core) :
  satisfiable (availablePlugins c) (normalize <$> batch) →
  (∀ entry, entry ∈ normalize <$> batch → returns entry.1) →
  (∀ entry, entry ∈ rawPlugins c → listens entry.1) →
  ∃ c' log,
    registerPlugins batch c = (Ok (), c', log) ∧
    ∀ k, is_Some (plugins c' !! k) ↔
         is_Some (plugins c !! k) ∨ k ∈ exposed_by (normalize <$> batch).
Proof.
  intros Hsat Hret Hlis.
  destruct (registers_total (normalize <$> batch) c) as [c1 Hreg].
  { intros entry Hin. apply (Hret entry Hin). }
  eexists (push_rawPlugins (normalize <$> batch) c1), _. split.
  - by apply (run_registerPlugins_Ok batch c c1).
  - intros k. simpl. by apply registers_lookup_is_Some.
Qed.

(** ** The view and the notification argument, in general *)

(** X15. When ["plugins"] itself is among the keys of [overrides], reading
    any overridden key from the view exhausts the call stack, however deep
    the stack and whatever is exposed: its getter reads [this.plugins], which
    is that same getter. *)
Theorem overriding_plugins_exhausts_stack
    (stack : nat) (exposed : gmap string value) (options : Options.t) (k : string) :
  k ∈ overrideKeys options → "plugins" ∈ overrideKeys options →
  read_view stack exposed (overrideKeys options) k = Throw RangeError ∧
  pluginsWithOverrides exposed options k = Throw RangeError.
Proof.
  intros Hk Hp. split.
  - destruct stack as [|stack]; simpl; rewrite decide_True by done; [done|].
    by rewrite read_view_plugins_own.
  - unfold pluginsWithOverrides. by rewrite !decide_True.
Qed.

(** X16. When ["plugins"] is not overridden, reading an overridden key [k]
    from the view gives the property [k] of the value exposed under
    ["plugins"], whatever [k] is mapped to and whatever is exposed under [k]
    or under what it is mapped to; with nothing exposed under ["plugins"],
    or [undefined] or [null], the read throws a [TypeError]. *)
Theorem overridden_key_reads_plugins_entry
    (stack : nat) (exposed : gmap string value) (options : Options.t) (k : string) :
  k ∈ overrideKeys options → "plugins" ∉ overrideKeys options →
  read_view (S (S stack)) exposed (overrideKeys options) k
    = get_property (default VUndefined (exposed !! "plugins")) k ∧
  pluginsWithOverrides exposed options k
    = get_property (default VUndefined (exposed !! "plugins")) k ∧
  (exposed !! "plugins" = None ∨ exposed !! "plugins" = Some VUndefined ∨
   exposed !! "plugins" = Some VNull →
   pluginsWithOverrides exposed options k = Throw TypeError) ∧
  (∀ oid props, exposed !! "plugins" = Some (VObject oid props) →
   pluginsWithOverrides exposed options k
     = Ok (default VUndefined (own_property k props))).
Proof.
  intros Hk Hp.
  assert (pluginsWithOverrides exposed options k
            = get_property (default VUndefined (exposed !! "plugins")) k) as Heq.
  { unfold pluginsWithOverrides. by rewrite decide_True, decide_False. }
  split_and!.
  - by rewrite read_view_pluginsWithOverrides.
  - done.
  - rewrite Heq. by intros [->|[->| ->]].
  - intros oid props Hobj. by rewrite Heq, Hobj.
Qed.

(** X17. The object passed to [onPluginRegister] is the metadata object of
    the last member of the batch, with the keys [name], [provides] and
    [depends] whatever the exposure keys of the batch are, and the empty
    object for an empty batch; no other member of the batch is to be found
    in it. *)
Theorem notification_argument_is_last_metadata
    (entries : list (Plugin * Options.t)) (last : Plugin * Options.t) :
  pluginData (entries ++ [last]) = Metadata.object (metadata last.1) ∧
  keys (pluginData (entries ++ [last])) = ["name"; "provides"; "depends"] ∧
  pluginData (entries ++ [last]) = pluginData [last] ∧
  pluginData [] = [].
Proof.
  assert (pluginData (entries ++ [last]) = Metadata.object (metadata last.1)) as H.
  { unfold pluginData. by rewrite foldl_app. }
  split_and!; [done|by rewrite H|by rewrite H|done].
Qed.

(** ** The further properties at sample batches *)

Lemma dependencies_stay_met_witness :
  let c := (registerPlugins [Bare examplePlugin] constructor).1.2 in
  let batch := [Bare hasDependency] in
  let other := [Pair usesLogger logger_override] in
  satisfiable (availablePlugins c) (normalize <$> batch) ∧
  satisfiable (availablePlugins (registerPlugins other c).1.2) (normalize <$> batch) ∧
  check_dependencies (normalize <$> batch) (registerPlugins other c).1.2
    = (Ok (), (registerPlugins other c).1.2, []).
Proof.
  intros c batch other.
  assert (satisfiable (availablePlugins c) (normalize <$> batch)) as H.
  { intros q d Hq Hd. each_member Hq. each_member Hd. left. left. }
  hypotheses_then 1 (dependencies_stay_met batch other c H).
Defined.

Lemma register_throw_keeps_partial_witness :
  let c := constructor in
  let before := [Bare logger] in
  let failing := Pair usesLogger logger_override in
  let after := [Bare examplePlugin] in
  let c1 := registered (logger, Options.empty) (VObject 6 []) c in
  let e := TypeError in
  satisfiable (availablePlugins c) (normalize <$> before ++ failing :: after) ∧
  registers c (normalize <$> before) c1 ∧
  register (normalize failing).1
    (pluginsWithOverrides (plugins c1) (normalize failing).2) = Throw e ∧
  registerPlugins (before ++ failing :: after) c
    = (Throw e, c1, CallRegister <$> pids (normalize <$> before ++ [failing])) ∧
  rawPlugins c1 = rawPlugins c ∧
  availablePlugins c1 = availablePlugins c ++ offered (normalize <$> before) ∧
  (∀ entry, entry ∈ normalize <$> before →
     is_Some (plugins c1 !! key entry.1 entry.2)).
Proof.
  intros c before failing after c1 e.
  assert (satisfiable (availablePlugins c)
            (normalize <$> before ++ failing :: after)) as H1.
  { intros q d Hq Hd. each_member Hq; each_member Hd.
    right. exists (logger, Options.empty). split; [left|by left]. }
  assert (registers c (normalize <$> before) c1) as H2.
  { econstructor; [reflexivity|constructor]. }
  assert (register (normalize failing).1
            (pluginsWithOverrides (plugins c1) (normalize failing).2) = Throw e) as H3.
  { by vm_compute. }
  hypotheses_then 3 (register_throw_keeps_partial before after failing c c1 e H1 H2 H3).
Defined.

Lemma init_throw_keeps_registration_witness :
  let c := constructor in
  let batch := [Bare examplePlugin; Bare throwsAtInit; Bare windowEvents] in
  let before := [(examplePlugin, Options.empty)] in
  let failing := (throwsAtInit, Options.empty) in
  let after := [(windowEvents, Options.empty)] in
  let c1 :=
    registered (windowEvents, Options.empty) (VObject 5 [])
      (registered (throwsAtInit, Options.empty) (VObject 12 [])
         (registered (examplePlugin, Options.empty) (VObject 1 []) c)) in
  let e := Error "init failed" in
  normalize <$> batch = before ++ failing :: after ∧
  satisfiable (availablePlugins c) (normalize <$> batch) ∧
  registers c (normalize <$> batch) c1 ∧
  (∀ entry, entry ∈ before →
     init entry.1 (pluginsWithOverrides (plugins c1) entry.2) = Ok ()) ∧
  init failing.1 (pluginsWithOverrides (plugins c1) failing.2) = Throw e ∧
  registerPlugins batch c
    = (Throw e, c1,
       (CallRegister <$> pids (normalize <$> batch)) ++
       (CallInit <$> pids (before ++ [failing]))) ∧
  rawPlugins c1 = rawPlugins c ∧
  availablePlugins c1 = availablePlugins c ++ offered (normalize <$> batch) ∧
  (∀ entry, entry ∈ normalize <$> batch →
     is_Some (plugins c1 !! key entry.1 entry.2)).
Proof.
  intros c batch before failing after c1 e.
  assert (satisfiable (availablePlugins c) (normalize <$> batch)) as H1.
  { intros q d Hq Hd. each_member Hq; by apply elem_of_nil in Hd. }
  assert (registers c (normalize <$> batch) c1) as H2.
  { repeat (econstructor; [reflexivity|]). constructor. }
  assert (∀ entry, entry ∈ before →
            init entry.1 (pluginsWithOverrides (plugins c1) entry.2) = Ok ()) as H3.
  { intros entry H. by each_member H. }
  hypotheses_then 5 (init_throw_keeps_registration batch before after failing c c1 e
             eq_refl H1 H2 H3 eq_refl).
Defined.

Lemma listener_throw_loses_commit_witness :
  let c := (registerPlugins [Bare examplePlugin; Bare throwsWhenNotified]
              constructor).1.2 in
  let batch := [Bare windowEvents] in
  let before := [(examplePlugin, Options.empty)] in
  let failing := (throwsWhenNotified, Options.empty) in
  let after := [] in
  let c1 := registered (windowEvents, Options.empty) (VObject 5 []) c in
  let e := Error "not interested" in
  let entries := normalize <$> batch in
  let data := pluginData entries in
  rawPlugins c = before ++ failing :: after ∧
  satisfiable (availablePlugins c) entries ∧
  registers c entries c1 ∧
  (∀ entry, entry ∈ entries → returns entry.1) ∧
  (∀ entry, entry ∈ before →
     onPluginRegister entry.1 (pluginsWithOverrides (plugins c1) entry.2) data
       = Ok ()) ∧
  onPluginRegister failing.1 (pluginsWithOverrides (plugins c1) failing.2) data
    = Throw e ∧
  registerPlugins batch c
    = (Throw e, c1,
       (CallRegister <$> pids entries) ++ (CallInit <$> pids entries) ++
       (CallAfterInit <$> pids entries) ++
       notifications data (before ++ [failing])) ∧
  rawPlugins c1 = rawPlugins c ∧
  availablePlugins c1 = availablePlugins c ++ offered entries ∧
  (∀ entry, entry ∈ entries → is_Some (plugins c1 !! key entry.1 entry.2)).
Proof.
  intros c batch before failing after c1 e entries data.
  assert (satisfiable (availablePlugins c) entries) as H1.
  { intros q d Hq Hd. each_member Hq. by apply elem_of_nil in Hd. }
  assert (registers c entries c1) as H2.
  { econstructor; [reflexivity|constructor]. }
  assert (∀ entry, entry ∈ entries → returns entry.1) as H3.
  { intros entry H. each_member H. apply sample_returns. }
  assert (∀ entry, entry ∈ before →
            onPluginRegister entry.1 (pluginsWithOverrides (plugins c1) entry.2) data
              = Ok ()) as H4.
  { intros entry H. by each_member H. }
  hypotheses_then 6 (listener_throw_loses_commit batch before after failing c c1 e
             eq_refl H1 H2 H3 H4 eq_refl).
Defined.

Lemma empty_batch_still_notifies_witness :
  let c := (registerPlugins [Bare examplePlugin] constructor).1.2 in
  (∀ entry, entry ∈ rawPlugins c → listens entry.1) ∧
  registerPlugins [] c = (Ok (), c, notifications [] (rawPlugins c)).
Proof.
  intros c.
  assert (∀ entry, entry ∈ rawPlugins c → listens entry.1) as H.
  { intros entry Hin. by each_member Hin. }
  hypotheses_then 1 (empty_batch_still_notifies c H).
Defined.

Lemma dependency_check_ignores_order_witness :
  let c := constructor in
  let batch := [Bare hasDependency; Bare circularDependencyA] in
  let batch' := [Bare circularDependencyA; Bare hasDependency] in
  batch ≡ₚ batch' ∧
  check_dependencies (normalize <$> batch) c
    = check_dependencies (normalize <$> batch') c ∧
  (¬ satisfiable (availablePlugins c) (normalize <$> batch) →
   registerPlugins batch c = registerPlugins batch' c).
Proof.
  intros c batch batch'.
  assert (batch ≡ₚ batch') as H by apply perm_swap.
  hypotheses_then 1 (dependency_check_ignores_order batch batch' c H).
Defined.

Lemma binding_changes_only_by_primary_key_witness :
  let c := (registerPlugins [Bare windowEvents] constructor).1.2 in
  let batch := [Bare (sample 8 "domEvents" ["events"] [])] in
  plugins c !! "events" = Some (VObject 5 []) ∧
  (∀ entry, entry ∈ normalize <$> batch → key entry.1 entry.2 ≠ "events") ∧
  plugins (registerPlugins batch c).1.2 !! "events" = Some (VObject 5 []).
Proof.
  intros c batch.
  assert (plugins c !! "events" = Some (VObject 5 [])) as H1 by by vm_compute.
  assert (∀ entry, entry ∈ normalize <$> batch → key entry.1 entry.2 ≠ "events")
    as H2.
  { intros entry H. by each_member H. }
  hypotheses_then 2 (binding_changes_only_by_primary_key batch c "events" (VObject 5 []) H1 H2).
Defined.

Lemma plain_names_keep_dependencies_bound_witness :
  let c := constructor in
  let batch := [Bare examplePlugin; Bare hasDependency] in
  resolvable c ∧
  (∀ entry, entry ∈ normalize <$> batch → plainly_named entry) ∧
  resolvable (registerPlugins batch c).1.2 ∧
  ((registerPlugins batch c).1.1 = Ok () →
   ∀ entry d, entry ∈ normalize <$> batch →
     d ∈ Metadata.depends (metadata entry.1) →
     is_Some (plugins (registerPlugins batch c).1.2 !! d)).
Proof.
  intros c batch.
  assert (resolvable c) as H1.
  { intros x Hx. by apply elem_of_nil in Hx. }
  assert (∀ entry, entry ∈ normalize <$> batch → plainly_named entry) as H2.
  { intros entry H. by each_member H. }
  hypotheses_then 2 (plain_names_keep_dependencies_bound batch c H1 H2).
Defined.

Lemma dependency_graph_stays_closed_witness :
  let c := constructor in
  let batch := [Bare examplePlugin; Bare hasDependency] in
  graph_closed c ∧
  satisfiable (availablePlugins c) (normalize <$> batch) ∧
  (∀ entry, entry ∈ normalize <$> batch → returns entry.1) ∧
  (∀ entry, entry ∈ rawPlugins c → listens entry.1) ∧
  ∃ c' log, registerPlugins batch c = (Ok (), c', log) ∧ graph_closed c'.
Proof.
  intros c batch.
  assert (graph_closed c) as H1.
  { intros d l Hl. simpl in Hl. by rewrite lookup_empty in Hl. }
  assert (satisfiable (availablePlugins c) (normalize <$> batch)) as H2.
  { intros q d Hq Hd. each_member Hq; each_member Hd.
    right. exists (examplePlugin, Options.empty). split; [left|by left]. }
  assert (∀ entry, entry ∈ normalize <$> batch → returns entry.1) as H3.
  { intros entry H. each_member H; apply sample_returns. }
  pose proof nobody_listens_yet as H0.
  hypotheses_then 4 (dependency_graph_stays_closed batch c H1 H2 H3 nobody_listens_yet).
Defined.

Lemma bound_keys_after_a_call_witness :
  let c := constructor in
  let batch := custom_batch in
  satisfiable (availablePlugins c) (normalize <$> batch) ∧
  (∀ entry, entry ∈ normalize <$> batch → returns entry.1) ∧
  (∀ entry, entry ∈ rawPlugins c → listens entry.1) ∧
  ∃ c' log,
    registerPlugins batch c = (Ok (), c', log) ∧
    ∀ k, is_Some (plugins c' !! k) ↔
         is_Some (plugins c !! k) ∨ k ∈ exposed_by (normalize <$> batch).
Proof.
  intros c batch.
  assert (satisfiable (availablePlugins c) (normalize <$> batch)) as H1.
  { intros q d Hq Hd. each_member Hq; by apply elem_of_nil in Hd. }
  assert (∀ entry, entry ∈ normalize <$> batch → returns entry.1) as H2.
  { intros entry H. each_member H; apply sample_returns. }
  pose proof nobody_listens_yet as H0.
  hypotheses_then 3 (bound_keys_after_a_call batch c H1 H2 nobody_listens_yet).
Defined.

Lemma overriding_plugins_exhausts_stack_witness :
  "plugins" ∈ overrideKeys plugins_override ∧
  read_view 5 ∅ (overrideKeys plugins_override) "plugins" = Throw RangeError ∧
  pluginsWithOverrides ∅ plugins_override "plugins" = Throw RangeError.
Proof.
  assert ("plugins" ∈ overrideKeys plugins_override) as H.
  { by apply (bool_decide_unpack _). }
  hypotheses_then 1 (overriding_plugins_exhausts_stack 5 ∅ plugins_override "plugins" H H).
Defined.

Lemma overridden_key_reads_plugins_entry_witness :
  let exposed : gmap string value := {[ "customLogger" := VObject 6 [] ]} in
  let options := logger_override in
  let k := "logger" in
  k ∈ overrideKeys options ∧ ("plugins" ∉ overrideKeys options) ∧
  read_view 2 exposed (overrideKeys options) k
    = get_property (default VUndefined (exposed !! "plugins")) k ∧
  pluginsWithOverrides exposed options k
    = get_property (default VUndefined (exposed !! "plugins")) k ∧
  (exposed !! "plugins" = None ∨ exposed !! "plugins" = Some VUndefined ∨
   exposed !! "plugins" = Some VNull →
   pluginsWithOverrides exposed options k = Throw TypeError) ∧
  (∀ oid props, exposed !! "plugins" = Some (VObject oid props) →
   pluginsWithOverrides exposed options k
     = Ok (default VUndefined (own_property k props))).
Proof.
  intros exposed options k.
  assert (k ∈ overrideKeys options) as H1 by by apply (bool_decide_unpack _).
  assert ("plugins" ∉ overrideKeys options) as H2 by by apply (bool_decide_unpack _).
  hypotheses_then 2 (overridden_key_reads_plugins_entry 0 exposed options k H1 H2).
Defined.

(** * The earlier Core: proofs *)

Module LegacyFacts.
Import Legacy.

Lemma legacy_run_bind {A B} (m : M A) (f : A → M B) c :
  (m ≫= f) c =
    match m c with
    | (Ok a, c', log) => let '(r, c'', log') := f a c' in (r, c'', log ++ log')
    | (Throw e, c', log) => (Throw e, c', log)
    end.
Proof. reflexivity. Qed.

Lemma legacy_run_bind_Ok {A B} (m : M A) (f : A → M B) c a c' log :
  m c = (Ok a, c', log) →
  (m ≫= f) c = ((f a c').1.1, (f a c').1.2, log ++ (f a c').2).
Proof. intros H. rewrite legacy_run_bind, H. by destruct (f a c') as [[??]?]. Qed.

Lemma legacy_run_bind_Throw {A B} (m : M A) (f : A → M B) c e c' log :
  m c = (Throw e, c', log) → (m ≫= f) c = (Throw e, c', log).
Proof. intros H. by rewrite legacy_run_bind, H. Qed.

Lemma legacy_run_forEach_cons {A} (f : A → M ()) x l c :
  forEach f (x :: l) c = (f x ;; forEach f l) c.
Proof. reflexivity. Qed.

(** ** What every computation of the call keeps and logs *)

Lemma keeps_bind {A B} (m : M A) (f : A → M B) :
  keeps m → (∀ a, keeps (f a)) → keeps (m ≫= f).
Proof.
  intros Hm Hf c. rewrite legacy_run_bind. pose proof (Hm c) as Hc.
  destruct (m c) as [[[a|e] c'] log]; simpl in Hc; [|done].
  pose proof (Hf a c') as Hc'. destruct (f a c') as [[r c''] log']. simpl in *.
  congruence.
Qed.

Lemma keeps_forEach {A} (f : A → M ()) l : (∀ x, keeps (f x)) → keeps (forEach f l).
Proof.
  intros Hf. induction l as [|x l IH]; [done|].
  intros c. rewrite legacy_run_forEach_cons. by apply keeps_bind.
Qed.

Lemma keeps_modify (g : Core → Core) :
  (∀ c, rawPlugins (g c) = rawPlugins c) → keeps (modify g).
Proof. intros Hg c. apply Hg. Qed.

Lemma keeps_add_dependent d n : keeps (add_dependent d n).
Proof.
  intros c. unfold add_dependent. rewrite legacy_run_bind. unfold get.
  by repeat case_decide.
Qed.

Lemma keeps_register_plugin p : keeps (register_plugin p).
Proof.
  unfold register_plugin. apply keeps_bind; [done|]. intros c.
  apply keeps_bind; [done|]. intros v.
  apply keeps_bind; [apply keeps_forEach; intros; apply keeps_add_dependent|].
  intros _. apply keeps_bind; [done|]. intros _.
  apply keeps_bind; [done|]. intros _.
  apply keeps_forEach. intros x. by apply keeps_bind.
Qed.

Lemma keeps_check_dependencies : keeps check_dependencies.
Proof.
  intros c. unfold check_dependencies. rewrite legacy_run_bind. unfold get.
  by case_decide.
Qed.

Lemma keeps_registerPlugins batch : keeps (registerPlugins batch).
Proof.
  unfold registerPlugins.
  apply keeps_bind; [apply keeps_forEach, keeps_register_plugin|]. intros _.
  apply keeps_bind; [apply keeps_check_dependencies|].
  intros _. apply keeps_bind; [by apply keeps_forEach|]. intros _.
  apply keeps_bind; [by apply keeps_forEach|]. intros _.
  apply keeps_bind; [done|]. intros c.
  apply keeps_bind; [by apply keeps_forEach|]. done.
Qed.

Lemma logs_bind {A B} P (m : M A) (f : A → M B) :
  logs P m → (∀ a, logs P (f a)) → logs P (m ≫= f).
Proof.
  intros Hm Hf c. rewrite legacy_run_bind. pose proof (Hm c) as Hc.
  destruct (m c) as [[[a|e] c'] log]; simpl in Hc; [|done].
  pose proof (Hf a c') as Hc'. destruct (f a c') as [[r c''] log']. simpl in *.
  by apply Forall_app.
Qed.

Lemma logs_forEach {A} P (f : A → M ()) l :
  (∀ x, logs P (f x)) → logs P (forEach f l).
Proof.
  intros Hf. induction l as [|x l IH]; [by intros c; constructor|].
  intros c. rewrite legacy_run_forEach_cons. by apply logs_bind.
Qed.

Lemma logs_silent {A} P (m : M A) : (∀ c, (m c).2 = []) → logs P m.
Proof. intros H c. rewrite H. constructor. Qed.

Lemma logs_add_dependent P d n : logs P (add_dependent d n).
Proof.
  apply logs_silent. intros c. unfold add_dependent. rewrite legacy_run_bind.
  unfold get. by repeat case_decide.
Qed.

Lemma logs_register_plugin p :
  logs (λ what, is_notification what = false) (register_plugin p).
Proof.
  unfold register_plugin. apply logs_bind; [by apply logs_silent|]. intros c.
  apply logs_bind. { intros c'. by repeat constructor. }
  intros v. apply logs_bind.
  { apply logs_forEach. intros. apply logs_add_dependent. }
  intros _. apply logs_bind; [by apply logs_silent|]. intros _.
  apply logs_bind; [by apply logs_silent|]. intros _.
  apply logs_forEach. intros x. by apply logs_silent.
Qed.

Lemma quiet_keeps_logs {A} (m : M A) :
  keeps m → logs (λ what, is_notification what = false) m → quiet m.
Proof. intros Hk Hl c Hnew. split; [by rewrite Hk|apply Hl]. Qed.

Lemma quiet_bind {A B} (m : M A) (f : A → M B) :
  quiet m → (∀ a, quiet (f a)) → quiet (m ≫= f).
Proof.
  intros Hm Hf c Hnew. rewrite legacy_run_bind.
  destruct (Hm c Hnew) as [Hraw Hlog].
  destruct (m c) as [[[a|e] c'] log]; simpl in Hraw, Hlog; [|done].
  destruct (Hf a c' Hraw) as [Hraw' Hlog'].
  destruct (f a c') as [[r c''] log']. simpl in *. split; [done|].
  by apply Forall_app.
Qed.

Lemma quiet_hook_loop (f : Plugin → M ()) batch :
  (∀ p, keeps (f p)) →
  (∀ p, logs (λ what, is_notification what = false) (f p)) →
  quiet (forEach f batch).
Proof.
  intros Hk Hl. apply quiet_keeps_logs; [by apply keeps_forEach|by apply logs_forEach].
Qed.

(** X18. The earlier Core never records a plugin: whatever the batch and
    the hooks and however the call ends, the raw plugin list is as before;
    so on a Core made by [new Core()] and used through [registerPlugins]
    only, the list stays empty and no [onPluginRegister] is ever called. *)
Theorem earlier_core_never_records (batch : list Plugin) (c : Core) :
  rawPlugins (registerPlugins batch c).1.2 = rawPlugins c ∧
  (rawPlugins c = [] →
   rawPlugins (registerPlugins batch c).1.2 = [] ∧
   Forall (λ what, is_notification what = false) (registerPlugins batch c).2).
Proof.
  split; [apply keeps_registerPlugins|]. revert c.
  change (quiet (registerPlugins batch)). unfold registerPlugins.
  apply quiet_bind.
  { apply quiet_hook_loop; [apply keeps_register_plugin|apply logs_register_plugin]. }
  intros _. apply quiet_bind.
  { apply quiet_keeps_logs; [apply keeps_check_dependencies|].
    apply logs_silent. intros c. unfold check_dependencies.
    rewrite legacy_run_bind. unfold get. by case_decide. }
  intros _. apply quiet_bind.
  { apply quiet_hook_loop; [done|]. intros p c. by repeat constructor. }
  intros _. apply quiet_bind.
  { apply quiet_hook_loop; [done|]. intros p c. by repeat constructor. }
  intros _ c Hnew. rewrite legacy_run_bind. unfold get. rewrite Hnew. simpl.
  split; [done|constructor].
Qed.

(** ** The registration loop of the earlier Core *)

Lemma legacy_run_forEach_Ok {A} (f : A → M ()) (step : A → Core → Core)
    (log : A → list call) l c :
  (∀ x c, x ∈ l → f x c = (Ok (), step x c, log x)) →
  forEach f l c = (Ok (), foldl (λ c x, step x c) c l, l ≫= log).
Proof.
  revert c. induction l as [|x l IH]; intros c Hf; [done|].
  rewrite legacy_run_forEach_cons.
  erewrite legacy_run_bind_Ok by (apply Hf; left).
  rewrite IH by (intros; apply Hf; by right). done.
Qed.

Lemma legacy_run_forEach_calls (f : Plugin → M ()) (what : Plugin → call) l c :
  (∀ p, p ∈ l → f p c = (Ok (), c, [what p])) →
  forEach f l c = (Ok (), c, what <$> l).
Proof.
  induction l as [|x l IH]; intros Hf; [done|].
  rewrite legacy_run_forEach_cons, (legacy_run_bind_Ok _ _ _ () c [what x])
    by (apply Hf; left).
  rewrite IH by (intros; apply Hf; by right). done.
Qed.

Lemma legacy_run_forEach_app_Ok {A} (f : A → M ()) l1 l2 c c1 log1 :
  forEach f l1 c = (Ok (), c1, log1) →
  forEach f (l1 ++ l2) c
    = ((forEach f l2 c1).1.1, (forEach f l2 c1).1.2, log1 ++ (forEach f l2 c1).2).
Proof.
  revert c log1. induction l1 as [|x l1 IH]; intros c log1.
  { intros [= <- <-]. simpl. by destruct (forEach f l2 c) as [[??]?]. }
  rewrite <-app_comm_cons, !legacy_run_forEach_cons, !legacy_run_bind.
  destruct (f x c) as [[[[]|e] c'] log] eqn:Hx; [|done].
  destruct (forEach f l1 c') as [[r1 c1'] log1'] eqn:Hl1.
  intros [= -> -> <-]. rewrite (IH _ _ Hl1). simpl. by rewrite app_assoc.
Qed.

Lemma run_add_dependent_plain d n c :
  d ∉ Object_prototype →
  add_dependent d n c = (Ok (), push_dependent d n c, []).
Proof.
  intros Hd. unfold add_dependent. rewrite legacy_run_bind. unfold get.
  by repeat case_decide.
Qed.

Lemma run_add_dependent_inherited d n c :
  d ∈ Object_prototype → d ∉ dom (dependencyMap c) →
  add_dependent d n c = (Throw TypeError, c, []).
Proof.
  intros Hd Hown. unfold add_dependent. rewrite legacy_run_bind. unfold get.
  by repeat case_decide.
Qed.

Lemma run_add_dependents_plain l n c :
  (∀ d, d ∈ l → d ∉ Object_prototype) →
  forEach (λ d, add_dependent d n) l c
    = (Ok (), foldl (λ c d, push_dependent d n c) c l, []).
Proof.
  intros Hl.
  rewrite (legacy_run_forEach_Ok _ (λ d c, push_dependent d n c) (λ _, []))
    by (intros; by apply run_add_dependent_plain, Hl).
  f_equal. clear Hl. by induction l.
Qed.

Lemma run_expose_all v l c :
  forEach (λ provided, modify (expose provided v);; modify (push_available provided))
    l c
    = (Ok (), foldl (λ c provided, push_available provided (expose provided v c)) c l,
       []).
Proof.
  rewrite (legacy_run_forEach_Ok _ (λ x c, push_available x (expose x v c))
             (λ _, [])) by done.
  f_equal. by induction l.
Qed.

Lemma legacy_run_register_plugin p v c :
  register p (this c) = Ok v →
  (∀ d, d ∈ dependencies (metadata p) → d ∉ Object_prototype) →
  register_plugin p c = (Ok (), registered p v c, [CallRegister (pid p)]).
Proof.
  intros Hv Hplain. unfold register_plugin.
  rewrite legacy_run_bind. unfold get at 1.
  rewrite legacy_run_bind. unfold invoke at 1. rewrite Hv.
  rewrite legacy_run_bind, run_add_dependents_plain by done.
  rewrite legacy_run_bind. unfold modify at 1.
  rewrite legacy_run_bind. unfold modify at 1.
  by rewrite run_expose_all.
Qed.

Lemma legacy_run_registers c batch c' :
  plain_dependencies batch → registers c batch c' →
  forEach register_plugin batch c = (Ok (), c', CallRegister <$> pids batch).
Proof.
  intros Hplain Hreg. induction Hreg as [c|c p v batch c' Hv _ IH]; [done|].
  rewrite legacy_run_forEach_cons, legacy_run_bind.
  rewrite (legacy_run_register_plugin p v c Hv)
    by (intros d Hd; by apply (Hplain p d); [left|]).
  rewrite IH by (intros q d Hq; apply Hplain; by right). done.
Qed.

(** *** What one round leaves in the tables *)

Lemma legacy_tables_exposed v l c :
  let c' := foldl (λ c x, push_available x (expose x v c)) c l in
  dependencyMap c' = dependencyMap c ∧ rawPlugins c' = rawPlugins c ∧
  availablePlugins c' = availablePlugins c ++ l ∧
  (∀ k, k ∈ l → plugins c' !! k = Some v) ∧
  (∀ k, k ∉ l → plugins c' !! k = plugins c !! k).
Proof.
  revert c. induction l as [|x l IH]; intros c; simpl.
  { rewrite app_nil_r. split_and!; [done..| |done]. by intros k ?%elem_of_nil. }
  destruct (IH (push_available x (expose x v c))) as (H1 & H2 & H3 & H4 & H5).
  simpl in *. rewrite H1, H2, H3, <-app_assoc. split_and!; [done..| |].
  - intros k Hk. destruct (decide (k ∈ l)) as [|Hnotin]; [by apply H4|].
    rewrite H5 by done. apply elem_of_cons in Hk as [->|?]; [|done].
    apply lookup_insert_eq.
  - intros k [Hne Hk]%not_elem_of_cons. rewrite H5 by done.
    by rewrite lookup_insert_ne.
Qed.

Lemma legacy_tables_edges n l c :
  let c' := foldl (λ c d, push_dependent d n c) c l in
  plugins c' = plugins c ∧ availablePlugins c' = availablePlugins c ∧
  rawPlugins c' = rawPlugins c ∧
  (∀ d, d ∈ dom (dependencyMap c') ↔ d ∈ dom (dependencyMap c) ∨ d ∈ l).
Proof.
  revert c. induction l as [|x l IH]; intros c; simpl.
  { split_and!; [done..|]. intros d. rewrite elem_of_nil. tauto. }
  destruct (IH (push_dependent x n c)) as (H1 & H2 & H3 & H4). simpl in *.
  split_and!; [done..|]. intros d. rewrite H4, dom_insert, elem_of_cons. set_solver.
Qed.

Lemma legacy_registered_tables p v c :
  let c' := registered p v c in
  rawPlugins c' = rawPlugins c ∧
  availablePlugins c'
    = availablePlugins c ++ name (metadata p) :: provides (metadata p) ∧
  (∀ k, k ∈ name (metadata p) :: provides (metadata p) → plugins c' !! k = Some v) ∧
  (∀ k, is_Some (plugins c !! k) → is_Some (plugins c' !! k)) ∧
  (∀ d, d ∈ dom (dependencyMap c') ↔
        d ∈ dom (dependencyMap c) ∨ d ∈ dependencies (metadata p)).
Proof.
  unfold registered.
  set (c0 := foldl _ c (dependencies (metadata p))).
  destruct (legacy_tables_edges (name (metadata p)) (dependencies (metadata p)) c)
    as (E1 & E2 & E3 & E4). fold c0 in E1, E2, E3, E4.
  destruct (legacy_tables_exposed v (provides (metadata p))
              (push_available (name (metadata p)) (expose (name (metadata p)) v c0)))
    as (H1 & H2 & H3 & H4 & H5). simpl in *.
  split_and!.
  - by rewrite H2.
  - by rewrite H3, E2, <-app_assoc.
  - intros k Hk. destruct (decide (k ∈ provides (metadata p))) as [|Hnotin];
      [by apply H4|].
    rewrite H5 by done. apply elem_of_cons in Hk as [->|?]; [|done].
    apply lookup_insert_eq.
  - intros k [w Hw]. destruct (decide (k ∈ provides (metadata p))) as [|Hnotin];
      [rewrite H4 by done; eauto|].
    rewrite H5 by done. destruct (decide (k = name (metadata p))) as [->|Hne].
    + rewrite lookup_insert_eq. eauto.
    + rewrite lookup_insert_ne, E1 by done. eauto.
  - intros d. by rewrite H1.
Qed.

Lemma legacy_registers_tables c batch c' :
  registers c batch c' →
  rawPlugins c' = rawPlugins c ∧
  availablePlugins c' = availablePlugins c ++ offered batch ∧
  (∀ p, p ∈ batch → is_Some (plugins c' !! name (metadata p))) ∧
  (∀ k, is_Some (plugins c !! k) → is_Some (plugins c' !! k)) ∧
  (∀ d, d ∈ dom (dependencyMap c') ↔ d ∈ dom (dependencyMap c) ∨ d ∈ wanted batch).
Proof.
  induction 1 as [c|c p v batch c' _ _ (IH1 & IH2 & IH3 & IH4 & IH5)].
  { unfold offered, wanted. simpl. rewrite app_nil_r.
    split_and!; [done..|by intros p ?%elem_of_nil|done|].
    intros d. rewrite elem_of_nil. tauto. }
  destruct (legacy_registered_tables p v c) as (H1 & H2 & H3 & H4 & H5).
  simpl in *. split_and!.
  - by rewrite IH1.
  - rewrite IH2, H2. unfold offered. simpl. by rewrite <-app_assoc.
  - intros q [->|Hq]%elem_of_cons; [|by apply IH3].
    apply IH4. rewrite H3 by left. eauto.
  - intros k Hk. by apply IH4, H4.
  - intros d. rewrite IH5, H5. unfold wanted. simpl. rewrite elem_of_app. tauto.
Qed.

(** *** The check *)

Lemma legacy_elem_of_difference c d :
  d ∈ difference c ↔ d ∈ dom (dependencyMap c) ∧ d ∉ availablePlugins c.
Proof.
  unfold difference, Object_keys.
  rewrite elem_of_new_Set, list_elem_of_filter, !elem_of_new_Set, elem_of_elements.
  tauto.
Qed.

Lemma legacy_run_check_Throw c d :
  d ∈ dom (dependencyMap c) → d ∉ availablePlugins c →
  check_dependencies c = (Throw TypeError, c, []).
Proof.
  intros Hd Hav. unfold check_dependencies. rewrite legacy_run_bind. unfold get.
  case_decide as Hlen; [done|].
  assert (d ∈ difference c) as Hin by by apply legacy_elem_of_difference.
  destruct (difference c); [by apply elem_of_nil in Hin|]. simpl in Hlen. lia.
Qed.

Lemma legacy_run_check_Ok c :
  (∀ d, d ∈ dom (dependencyMap c) → d ∈ availablePlugins c) →
  check_dependencies c = (Ok (), c, []).
Proof.
  intros Hall. unfold check_dependencies. rewrite legacy_run_bind. unfold get.
  case_decide as Hlen; [|done]. destruct (difference c) as [|d l] eqn:Hdiff; [done|].
  assert (d ∈ difference c) as Hin by (rewrite Hdiff; left).
  apply legacy_elem_of_difference in Hin as [Hd Hav]. destruct Hav. by apply Hall.
Qed.

(** *** After the registration loop *)

Lemma still_bind {A B} (m : M A) (f : A → M B) :
  still m → (∀ a, still (f a)) → still (m ≫= f).
Proof.
  intros Hm Hf c. rewrite legacy_run_bind. pose proof (Hm c) as Hc.
  destruct (m c) as [[[a|e] c'] log]; simpl in Hc; subst; [|done].
  pose proof (Hf a c) as Hc'. by destruct (f a c) as [[r c''] log'].
Qed.

Lemma still_forEach {A} (f : A → M ()) l : (∀ x, still (f x)) → still (forEach f l).
Proof.
  intros Hf. induction l as [|x l IH]; [done|].
  intros c. rewrite legacy_run_forEach_cons. by apply still_bind.
Qed.

Lemma still_after_registration batch :
  still (check_dependencies;;
         forEach init_plugin batch;;
         forEach afterInit_plugin batch;;
         c ← get;
         forEach (notify_plugin (pluginData batch)) (rawPlugins c);;
         push_apply batch).
Proof.
  apply still_bind.
  { intros c. unfold check_dependencies. rewrite legacy_run_bind. unfold get.
    by case_decide. }
  intros _. apply still_bind; [by apply still_forEach|]. intros _.
  apply still_bind; [by apply still_forEach|]. intros _.
  apply still_bind; [done|]. intros c.
  apply still_bind; [by apply still_forEach|]. done.
Qed.

Lemma legacy_state_after batch c c1 :
  plain_dependencies batch → registers c batch c1 →
  (registerPlugins batch c).1.2 = c1.
Proof.
  intros Hplain Hreg. unfold registerPlugins.
  rewrite (legacy_run_bind_Ok _ _ _ _ _ _ (legacy_run_registers _ _ _ Hplain Hreg)).
  simpl. apply still_after_registration.
Qed.

Lemma legacy_pluginData batch : pluginData batch = [].
Proof.
  unfold pluginData. induction (object ∘ metadata <$> batch) as [|data l IH]; done.
Qed.

(** X19. In the earlier Core the names are registered before the
    dependencies are checked, and a failed check throws a [TypeError], never
    the error with the list of unmet names: when a key of the dependency map,
    left by an earlier call or added by this batch, is not an available name
    after the registration loop, every [register] of the batch has been
    called, the batch stays exposed and available, no [init] is called, and
    the unmet name stays in the map, so that every later call fails the same
    way until a batch makes the name available. *)
Theorem unmet_dependency_is_a_TypeError
    (batch : list Plugin) (c c1 : Core) (d : string) :
  plain_dependencies batch →
  registers c batch c1 →
  d ∈ dom (dependencyMap c) ∨ d ∈ wanted batch →
  d ∉ availablePlugins c → d ∉ offered batch →
  registerPlugins batch c = (Throw TypeError, c1, CallRegister <$> pids batch) ∧
  availablePlugins c1 = availablePlugins c ++ offered batch ∧
  (∀ p, p ∈ batch → is_Some (plugins c1 !! name (metadata p))) ∧
  d ∈ dom (dependencyMap c1) ∧ (d ∉ availablePlugins c1).
Proof.
  intros Hplain Hreg Hd Hav Hoff.
  destruct (legacy_registers_tables _ _ _ Hreg) as (H1 & H2 & H3 & H4 & H5).
  assert (d ∈ dom (dependencyMap c1)) as Hd1 by by apply H5.
  assert (d ∉ availablePlugins c1) as Hav1.
  { rewrite H2. by intros [?|?]%elem_of_app. }
  split_and!; [|done..].
  unfold registerPlugins.
  rewrite (legacy_run_bind_Ok _ _ _ _ _ _ (legacy_run_registers _ _ _ Hplain Hreg)).
  rewrite (legacy_run_bind_Throw _ _ _ _ _ _ (legacy_run_check_Throw c1 d Hd1 Hav1)).
  simpl. by rewrite app_nil_r.
Qed.

(** X20. In the earlier Core a dependency with the name of a property that
    object literals inherit ([toString], [constructor], ...) makes the call
    throw a [TypeError] in the middle of the registration loop: the
    [register] of the plugin has been called, the dependencies before that
    one are in the map, and neither the plugin nor any member after it is
    exposed or made available. *)
Theorem inherited_name_as_dependency_throws
    (before after : list Plugin) (p : Plugin) (c c1 : Core) (v : value)
    (d : string) (ds1 ds2 : list string) :
  plain_dependencies before →
  registers c before c1 →
  register p (this c1) = Ok v →
  dependencies (metadata p) = ds1 ++ d :: ds2 →
  (∀ x, x ∈ ds1 → x ∉ Object_prototype) →
  d ∈ Object_prototype → d ∉ dom (dependencyMap c1) →
  let c2 := foldl (λ c x, push_dependent x (name (metadata p)) c) c1 ds1 in
  registerPlugins (before ++ p :: after) c
    = (Throw TypeError, c2, CallRegister <$> pids (before ++ [p])) ∧
  plugins c2 = plugins c1 ∧
  availablePlugins c2 = availablePlugins c ++ offered before.
Proof.
  intros Hplain Hreg Hv Hdeps Hds1 Hd Hown c2.
  destruct (legacy_tables_edges (name (metadata p)) ds1 c1) as (E1 & E2 & E3 & E4).
  fold c2 in E1, E2, E3, E4.
  destruct (legacy_registers_tables _ _ _ Hreg) as (_ & H2 & _).
  split_and!; [|done|by rewrite E2].
  assert (register_plugin p c1 = (Throw TypeError, c2, [CallRegister (pid p)])) as Hp.
  { unfold register_plugin.
    rewrite legacy_run_bind. unfold get at 1.
    rewrite legacy_run_bind. unfold invoke at 1. rewrite Hv, Hdeps.
    rewrite (legacy_run_bind_Throw _ _ _ TypeError c2 []); [done|].
    rewrite (legacy_run_forEach_app_Ok _ _ _ _ _ _
               (run_add_dependents_plain ds1 (name (metadata p)) c1 Hds1)).
    fold c2. rewrite legacy_run_forEach_cons.
    rewrite (legacy_run_bind_Throw _ _ _ TypeError c2 []); [done|].
    apply run_add_dependent_inherited; [done|].
    rewrite E4. intros [?|Hin]; [done|]. by apply (Hds1 d). }
  unfold registerPlugins.
  rewrite (legacy_run_bind_Throw _ _ _ TypeError c2
             (CallRegister <$> pids (before ++ [p]))); [done|].
  rewrite (legacy_run_forEach_app_Ok _ _ _ _ _ _
             (legacy_run_registers _ _ _ Hplain Hreg)).
  rewrite legacy_run_forEach_cons, (legacy_run_bind_Throw _ _ _ _ _ _ Hp). simpl.
  unfold pids. by rewrite !fmap_app.
Qed.

(** X21. In the earlier Core every name in [provides] is rebound like the
    plugin's own name: after the registration loop, whatever happens next,
    the name and every provided name of the last member of the batch are
    bound to what its [register] returned, whoever held them before. *)
Theorem later_provider_takes_the_name
    (before : list Plugin) (Y : Plugin) (c cX : Core) (vY : value) (svc : string) :
  plain_dependencies (before ++ [Y]) →
  registers c before cX →
  register Y (this cX) = Ok vY →
  svc ∈ name (metadata Y) :: provides (metadata Y) →
  plugins (registerPlugins (before ++ [Y]) c).1.2 !! svc = Some vY.
Proof.
  intros Hplain Hreg Hv Hsvc.
  assert (registers c (before ++ [Y]) (registered Y vY cX)) as Hall.
  { clear Hplain. induction Hreg as [c|c p v batch c' Hp _ IH]; simpl.
    - econstructor; [done|constructor].
    - econstructor; [done|]. by apply IH. }
  rewrite (legacy_state_after _ _ _ Hplain Hall).
  by destruct (legacy_registered_tables Y vY cX) as (_ & _ & H & _); apply H.
Qed.

(** X22. In the earlier Core, a call whose dependency names are all
    available after the registration loop and whose hooks do not throw
    makes all the [register] calls, then all the [init] calls, then all the
    [afterInit] calls, then calls [onPluginRegister] on the recorded plugins
    with an empty object, whatever the batch; it leaves the batch exposed
    and available and the raw plugin list as it was. *)
Theorem earlier_lifecycle (batch : list Plugin) (c c1 : Core) :
  plain_dependencies batch →
  registers c batch c1 →
  (∀ d, d ∈ dom (dependencyMap c) ∨ d ∈ wanted batch →
        d ∈ availablePlugins c ∨ d ∈ offered batch) →
  (∀ p, p ∈ batch → returns p) →
  (∀ p, p ∈ rawPlugins c → listens p) →
  registerPlugins batch c
    = (Ok (), c1,
       (CallRegister <$> pids batch) ++ (CallInit <$> pids batch) ++
       (CallAfterInit <$> pids batch) ++
       ((λ p, CallOnPluginRegister (pid p) []) <$> rawPlugins c)) ∧
  rawPlugins c1 = rawPlugins c ∧
  availablePlugins c1 = availablePlugins c ++ offered batch ∧
  (∀ p, p ∈ batch → is_Some (plugins c1 !! name (metadata p))).
Proof.
  intros Hplain Hreg Hmet Hret Hlis.
  destruct (legacy_registers_tables _ _ _ Hreg) as (H1 & H2 & H3 & H4 & H5).
  split_and!; [|done..].
  unfold registerPlugins.
  rewrite (legacy_run_bind_Ok _ _ _ _ _ _ (legacy_run_registers _ _ _ Hplain Hreg)).
  rewrite (legacy_run_bind_Ok _ _ _ () c1 []); last first.
  { apply legacy_run_check_Ok. intros d Hd. rewrite H2. apply elem_of_app.
    apply Hmet. by apply H5. }
  rewrite (legacy_run_bind_Ok _ _ _ () c1 (CallInit <$> pids batch)); last first.
  { unfold pids. rewrite <-list_fmap_compose. apply legacy_run_forEach_calls.
    intros p Hp. unfold init_plugin. rewrite legacy_run_bind. unfold get, invoke.
    by rewrite (proj1 (proj2 (Hret p Hp))). }
  rewrite (legacy_run_bind_Ok _ _ _ () c1 (CallAfterInit <$> pids batch)); last first.
  { unfold pids. rewrite <-list_fmap_compose. apply legacy_run_forEach_calls.
    intros p Hp. unfold afterInit_plugin. rewrite legacy_run_bind. unfold get, invoke.
    by rewrite (proj2 (proj2 (Hret p Hp))). }
  rewrite (legacy_run_bind_Ok _ _ _ c1 c1 []) by done.
  rewrite (legacy_run_bind_Ok _ _ _ () c1
             ((λ p, CallOnPluginRegister (pid p) []) <$> rawPlugins c)); last first.
  { rewrite H1, legacy_pluginData. apply legacy_run_forEach_calls.
    intros p Hp. unfold notify_plugin. rewrite legacy_run_bind. unfold get, invoke.
    by rewrite (Hlis p Hp). }
  simpl. by rewrite !app_nil_r.
Qed.

(** *** The earlier Core at sample batches *)

Lemma legacy_sample_plain batch :
  (∀ p d, p ∈ batch → d ∈ dependencies (metadata p) →
          bool_decide (d ∈ Object_prototype) = false) →
  plain_dependencies batch.
Proof.
  intros H p d Hp Hd Hin. specialize (H p d Hp Hd).
  by apply bool_decide_eq_false in H.
Qed.

Lemma earlier_core_never_records_witness :
  let batch := [examplePlugin; windowEvents] in
  rawPlugins constructor = [] ∧
  rawPlugins (registerPlugins batch constructor).1.2 = [] ∧
  Forall (λ what, is_notification what = false)
    (registerPlugins batch constructor).2.
Proof.
  intros batch. split; [reflexivity|].
  apply (proj2 (earlier_core_never_records batch constructor)). reflexivity.
Defined.

Lemma unmet_dependency_is_a_TypeError_witness :
  let c := constructor in
  let batch := [windowEvents; needsCache] in
  let c1 := registered needsCache (VObject 4 [])
              (registered windowEvents (VObject 3 []) c) in
  let d := "cache" in
  plain_dependencies batch ∧
  registers c batch c1 ∧
  (d ∈ dom (dependencyMap c) ∨ d ∈ wanted batch) ∧
  (d ∉ availablePlugins c) ∧ (d ∉ offered batch) ∧
  registerPlugins batch c = (Throw TypeError, c1, CallRegister <$> pids batch) ∧
  availablePlugins c1 = availablePlugins c ++ offered batch ∧
  (∀ p, p ∈ batch → is_Some (plugins c1 !! name (metadata p))) ∧
  d ∈ dom (dependencyMap c1) ∧ (d ∉ availablePlugins c1).
Proof.
  intros c batch c1 d.
  assert (plain_dependencies batch) as H1.
  { apply legacy_sample_plain. intros p x Hp Hx. by each_member Hp; each_member Hx. }
  assert (registers c batch c1) as H2.
  { econstructor; [reflexivity|]. econstructor; [reflexivity|]. constructor. }
  assert (d ∈ dom (dependencyMap c) ∨ d ∈ wanted batch) as H3.
  { right. by apply (bool_decide_unpack _). }
  assert (d ∉ availablePlugins c) as H4 by by apply (bool_decide_unpack _).
  assert (d ∉ offered batch) as H5 by by apply (bool_decide_unpack _).
  hypotheses_then 5 (unmet_dependency_is_a_TypeError batch c c1 d H1 H2 H3 H4 H5).
Defined.

Lemma inherited_name_as_dependency_throws_witness :
  let c := constructor in
  let before := [windowEvents] in
  let p := needsToString in
  let after := [examplePlugin] in
  let c1 := registered windowEvents (VObject 3 []) c in
  let v := VObject 5 [] in
  let d := "toString" in
  let ds1 := ["events"] in
  let ds2 : list string := [] in
  plain_dependencies before ∧
  registers c before c1 ∧
  register p (this c1) = Ok v ∧
  dependencies (metadata p) = ds1 ++ d :: ds2 ∧
  (∀ x, x ∈ ds1 → x ∉ Object_prototype) ∧
  d ∈ Object_prototype ∧ (d ∉ dom (dependencyMap c1)) ∧
  let c2 := foldl (λ c x, push_dependent x (name (metadata p)) c) c1 ds1 in
  registerPlugins (before ++ p :: after) c
    = (Throw TypeError, c2, CallRegister <$> pids (before ++ [p])) ∧
  plugins c2 = plugins c1 ∧
  availablePlugins c2 = availablePlugins c ++ offered before.
Proof.
  intros c before p after c1 v d ds1 ds2.
  assert (plain_dependencies before) as H1.
  { apply legacy_sample_plain. intros q x Hq Hx. by each_member Hq; each_member Hx. }
  assert (registers c before c1) as H2.
  { econstructor; [reflexivity|]. constructor. }
  assert (∀ x, x ∈ ds1 → x ∉ Object_prototype) as H5.
  { intros x Hx. each_member Hx. by apply (bool_decide_unpack _). }
  assert (d ∈ Object_prototype) as H6 by by apply (bool_decide_unpack _).
  assert (d ∉ dom (dependencyMap c1)) as H7 by by apply (bool_decide_unpack _).
  hypotheses_then 7
    (inherited_name_as_dependency_throws before after p c c1 v d ds1 ds2
       H1 H2 eq_refl eq_refl H5 H6 H7).
Defined.

Lemma later_provider_takes_the_name_witness :
  let c := constructor in
  let before := [windowEvents; needsEvents] in
  let Y := domEvents in
  let cX := registered needsEvents (VObject 7 [])
              (registered windowEvents (VObject 3 []) c) in
  let vY := VObject 6 [] in
  let svc := "events" in
  plain_dependencies (before ++ [Y]) ∧
  registers c before cX ∧
  register Y (this cX) = Ok vY ∧
  svc ∈ name (metadata Y) :: provides (metadata Y) ∧
  plugins cX !! svc = Some (VObject 3 []) ∧
  plugins (registerPlugins (before ++ [Y]) c).1.2 !! svc = Some vY.
Proof.
  intros c before Y cX vY svc.
  assert (plain_dependencies (before ++ [Y])) as H1.
  { apply legacy_sample_plain. intros q x Hq Hx. by each_member Hq; each_member Hx. }
  assert (registers c before cX) as H2.
  { econstructor; [reflexivity|]. econstructor; [reflexivity|]. constructor. }
  assert (svc ∈ name (metadata Y) :: provides (metadata Y)) as H4.
  { by apply (bool_decide_unpack _). }
  assert (plugins cX !! svc = Some (VObject 3 [])) as H5 by by vm_compute.
  hypotheses_then 5 (later_provider_takes_the_name before Y c cX vY svc H1 H2 eq_refl H4).
Defined.

Lemma legacy_sample_returns id n provided depended :
  returns (sample id n provided depended).
Proof. split_and!; [by eexists|done..]. Qed.

Lemma earlier_lifecycle_witness :
  let c := constructor in
  let batch := [windowEvents; needsEvents] in
  let c1 := registered needsEvents (VObject 7 [])
              (registered windowEvents (VObject 3 []) c) in
  plain_dependencies batch ∧
  registers c batch c1 ∧
  (∀ d, d ∈ dom (dependencyMap c) ∨ d ∈ wanted batch →
        d ∈ availablePlugins c ∨ d ∈ offered batch) ∧
  (∀ p, p ∈ batch → returns p) ∧
  (∀ p, p ∈ rawPlugins c → listens p) ∧
  registerPlugins batch c
    = (Ok (), c1,
       (CallRegister <$> pids batch) ++ (CallInit <$> pids batch) ++
       (CallAfterInit <$> pids batch) ++
       ((λ p, CallOnPluginRegister (pid p) []) <$> rawPlugins c)) ∧
  rawPlugins c1 = rawPlugins c ∧
  availablePlugins c1 = availablePlugins c ++ offered batch ∧
  (∀ p, p ∈ batch → is_Some (plugins c1 !! name (metadata p))).
Proof.
  intros c batch c1.
  assert (plain_dependencies batch) as H1.
  { apply legacy_sample_plain. intros q x Hq Hx. by each_member Hq; each_member Hx. }
  assert (registers c batch c1) as H2.
  { econstructor; [reflexivity|]. econstructor; [reflexivity|]. constructor. }
  assert (∀ d, d ∈ dom (dependencyMap c) ∨ d ∈ wanted batch →
               d ∈ availablePlugins c ∨ d ∈ offered batch) as H3.
  { intros d [Hd|Hd]; [by apply elem_of_empty in Hd|].
    right. each_member Hd. by apply (bool_decide_unpack _). }
  assert (∀ p, p ∈ batch → returns p) as H4.
  { intros p Hp. each_member Hp; apply legacy_sample_returns. }
  assert (∀ p, p ∈ rawPlugins c → listens p) as H5.
  { intros p Hp. by apply elem_of_nil in Hp. }
  hypotheses_then 5 (earlier_lifecycle batch c c1 H1 H2 H3 H4 H5).
Defined.

End LegacyFacts.
